(** * Mark-and-sweep garbage collection of the block store

    Shallow embedding of [packages/ipfs/src/core/components/repo/gc.js].

    The file has two parts.  The first part embeds the source: the data the
    collector handles, the collaborators it calls (blockstore, pin index,
    pin manager, root store, refs walker, lock), a small monad for the
    effects of an async generator (state, thrown errors, an early [return()]
    requested by the consumer, [try/catch] and [try/finally]), and then the
    functions [createMarkedSet], [removeBlock], [deleteUnmarkedBlocks] and
    [gc] themselves.  The second part states and proves the properties. *)

From Stdlib Require Import Strings.Byte.
From stdpp Require Import base list strings gmap sets.

(** ** Data *)

(** A JavaScript [Error]: its message and its optional [code] property. *)
Record JsError := mkError { message : string; code : option string }.

(** [new Error(msg)] has no [code]. *)
Definition new_Error (msg : string) : JsError :=
  {| message := msg; code := None |}.

(** A CID.  The collector only ever reads [cid.multihash] and prints the
    CID with a template string; version and codec are what makes two CIDs
    with one multihash differ. *)
Record CID := mkCID {
  version : nat;
  codec : string;
  multihash : list byte
}.

(** What [pin.ls()] yields; [pinsSource] keeps the [cid] property. *)
Record PinEntry := { pin_cid : CID }.

(** The objects the sweep yields: [{ cid }], [{ cid, err }] or [{ err }].
    An absent property is [None]. *)
Record Entry := mkEntry { cid : option CID; err : option JsError }.

(** An async iterable that is consumed once: finitely many items, then
    either the end or a rejection. *)
Inductive iter (A : Type) : Type :=
| INil
| IErr (e : JsError)
| ICons (a : A) (rest : iter A).
Arguments INil {A}.
Arguments IErr {A} e.
Arguments ICons {A} a rest.

Fixpoint iter_of_list {A} (l : list A) : iter A :=
  match l with
  | [] => INil
  | a :: l' => ICons a (iter_of_list l')
  end.

(** The items an iterable yields before it ends or rejects. *)
Fixpoint items {A} (s : iter A) : list A :=
  match s with
  | INil | IErr _ => []
  | ICons a rest => a :: items rest
  end.

(** The rejection an iterable ends with, if any. *)
Fixpoint rejection {A} (s : iter A) : option JsError :=
  match s with
  | INil => None
  | IErr e => Some e
  | ICons _ rest => rejection rest
  end.

(** [map(f, iterable)] of streaming-iterables, for a total [f]. *)
Fixpoint map_iter {A B} (f : A -> B) (s : iter A) : iter B :=
  match s with
  | INil => INil
  | IErr e => IErr e
  | ICons a rest => ICons (f a) (map_iter f rest)
  end.

(** A loop body that builds a value from each item and may throw while
    doing so: the iterable it produces rejects at the first throw. *)
Fixpoint map_iter_throwing {A B} (f : A -> JsError + B) (s : iter A) : iter B :=
  match s with
  | INil => INil
  | IErr e => IErr e
  | ICons a rest =>
      match f a with
      | inl e => IErr e
      | inr b => ICons b (map_iter_throwing f rest)
      end
  end.

Fixpoint iter_app {A} (s t : iter A) : iter A :=
  match s with
  | INil => t
  | IErr e => IErr e
  | ICons a rest => ICons a (iter_app rest t)
  end.

(** [parallelMerge(a, b, c)] of streaming-iterables pulls from its three
    sources concurrently and yields items as they arrive; it rejects as
    soon as a source it pulls from rejects.  Which source delivers next is
    not determined by the program, so the embedding takes it from a
    schedule; when the schedule is used up the remaining items arrive in
    source order. *)
Inductive SourceId := FromPins | FromPinInternals | FromMfs.

Fixpoint parallelMerge {A} (schedule : list SourceId) (a b c : iter A) : iter A :=
  match schedule with
  | [] => iter_app a (iter_app b c)
  | FromPins :: schedule' =>
      match a with
      | INil => parallelMerge schedule' a b c
      | IErr e => IErr e
      | ICons x a' => ICons x (parallelMerge schedule' a' b c)
      end
  | FromPinInternals :: schedule' =>
      match b with
      | INil => parallelMerge schedule' a b c
      | IErr e => IErr e
      | ICons x b' => ICons x (parallelMerge schedule' a b' c)
      end
  | FromMfs :: schedule' =>
      match c with
      | INil => parallelMerge schedule' a b c
      | IErr e => IErr e
      | ICons x c' => ICons x (parallelMerge schedule' a b c')
      end
  end.

(** [const BLOCK_RM_CONCURRENCY = 256] *)
Definition BLOCK_RM_CONCURRENCY : nat := 256.

(** ** Collaborators *)

(** The functions of other packages the collector calls.  [Store] is the
    state of the blockstore, [Raw] is whatever [new CID(...)] is given (the
    bytes under the MFS root key, the [ref] of a refs entry). *)
Record Env (Store Raw : Type) := {
  (** [multibase.encode('base32', mh).toString()]; it may throw. *)
  multibase_encode_base32 : list byte -> JsError + string;
  (** the [${cid}] of a template string *)
  cid_toString : CID -> string;
  (** [new CID(x)]; it throws on input that is no CID. *)
  new_CID : Raw -> JsError + CID;
  (** [Errors.notFoundError().code] of interface-datastore *)
  ERR_NOT_FOUND : string;
  (** [repo.blocks.query({ keysOnly: true })]: it may throw at the call,
      and the iterable it returns (the keys of the store at the call) may
      reject later. *)
  blocks_query : Store -> JsError + iter CID;
  (** [repo.blocks.delete(cid)]: the new store, or the rejection. *)
  blocks_delete : Store -> CID -> JsError + Store;
  (** whether the store holds the block of a CID (not called by the
      collector; used to state what a run leaves in the store) *)
  blocks_has : Store -> CID -> bool
}.
Arguments multibase_encode_base32 {Store Raw} _ _.
Arguments cid_toString {Store Raw} _ _.
Arguments new_CID {Store Raw} _ _.
Arguments ERR_NOT_FOUND {Store Raw} _.
Arguments blocks_query {Store Raw} _ _.
Arguments blocks_delete {Store Raw} _ _ _.
Arguments blocks_has {Store Raw} _ _ _.

(** What one run finds outside the blockstore: the outcome of
    [gcLock.writeLock()], the three sources of live CIDs, and the order in
    which [parallelMerge] delivers their items. *)
Record World (Raw : Type) := {
  (** [gcLock.writeLock()]: [Some e] when acquiring the lock rejects *)
  writeLock_rejects : option JsError;
  (** [pin.ls()] *)
  pin_ls : iter PinEntry;
  (** [pinManager.getInternalBlocks()] *)
  getInternalBlocks : JsError + list CID;
  (** [repo.root.get(MFS_ROOT_KEY)] *)
  root_get : JsError + Raw;
  (** [refs(rootCid, { recursive: true })], the [ref] of each entry *)
  refs : CID -> iter Raw;
  merge_schedule : list SourceId
}.
Arguments writeLock_rejects {Raw} _.
Arguments pin_ls {Raw} _.
Arguments getInternalBlocks {Raw} _.
Arguments root_get {Raw} _.
Arguments refs {Raw} _ _.
Arguments merge_schedule {Raw} _.

(** ** The effects of an async generator *)

(** The state a run reads and writes.  [store] is the blockstore;
    [blocksCount] and [removedBlocksCount] are the two counters of
    [deleteUnmarkedBlocks]; [emitted] collects what the generator has
    yielded so far.  [demand] is the consumer: [None] drains the generator,
    [Some n] takes [n] more entries after the next one and then calls
    [return()] on it.  [lockHeld], [releases] and [deleteLog] record the
    calls made on the lock and on [repo.blocks.delete] (with [None] for a
    call that resolved and [Some e] for one that rejected with [e]). *)
Record GcState (Store : Type) := mkState {
  store : Store;
  blocksCount : nat;
  removedBlocksCount : nat;
  emitted : list Entry;
  demand : option nat;
  lockHeld : bool;
  releases : nat;
  deleteLog : list (CID * option JsError)
}.
Arguments mkState {Store}.
Arguments store {Store} _.
Arguments blocksCount {Store} _.
Arguments removedBlocksCount {Store} _.
Arguments emitted {Store} _.
Arguments demand {Store} _.
Arguments lockHeld {Store} _.
Arguments releases {Store} _.
Arguments deleteLog {Store} _.

(** How a piece of JavaScript completes: normally with a value, by a
    thrown error, or (a generator suspended at a [yield]) because the
    consumer called [return()]. *)
Inductive Completion (A : Type) : Type :=
| Normal (a : A)
| Throw (e : JsError)
| Return.
Arguments Normal {A} a.
Arguments Throw {A} e.
Arguments Return {A}.

Definition Gen (Store A : Type) : Type :=
  GcState Store -> Completion A * GcState Store.

Section Effects.
Context {Store : Type}.
Abbreviation State := (GcState Store).
Abbreviation M := (Gen Store).

Definition ret {A} (a : A) : M A := fun s => (Normal a, s).

Definition bind {A B} (m : M A) (k : A -> M B) : M B :=
  fun s =>
    match m s with
    | (Normal a, s') => k a s'
    | (Throw e, s') => (Throw e, s')
    | (Return, s') => (Return, s')
    end.

Definition throw {A} (e : JsError) : M A := fun s => (Throw e, s).

(** [await] of a promise that is already settled *)
Definition await {A} (r : JsError + A) : M A :=
  match r with
  | inl e => throw e
  | inr a => ret a
  end.

(** [try { body } catch (err) { handler }]; a [return()] is not caught. *)
Definition try_catch {A} (body : M A) (handler : JsError -> M A) : M A :=
  fun s =>
    match body s with
    | (Throw e, s') => handler e s'
    | r => r
    end.

(** [try { body } finally { final }]: [final] runs however [body]
    completes, and the completion of [body] stands unless [final] itself
    completes abruptly. *)
Definition try_finally {A} (body : M A) (final : M unit) : M A :=
  fun s =>
    match body s with
    | (c, s') =>
        match final s' with
        | (Normal _, s'') => (c, s'')
        | (Throw e, s'') => (Throw e, s'')
        | (Return, s'') => (Return, s'')
        end
    end.

(** [yield res]: the entry reaches the consumer, which either asks for
    the next one or calls [return()]. *)
Definition yield (res : Entry) : M unit :=
  fun s =>
    let out := emitted s ++ [res] in
    match demand s with
    | None =>
        (Normal (),
         mkState (store s) (blocksCount s) (removedBlocksCount s) out
                 None (lockHeld s) (releases s) (deleteLog s))
    | Some (S n) =>
        (Normal (),
         mkState (store s) (blocksCount s) (removedBlocksCount s) out
                 (Some n) (lockHeld s) (releases s) (deleteLog s))
    | Some O =>
        (Return,
         mkState (store s) (blocksCount s) (removedBlocksCount s) out
                 (Some O) (lockHeld s) (releases s) (deleteLog s))
    end.

(** [blocksCount++] *)
Definition incr_blocksCount : M unit :=
  fun s =>
    (Normal (),
     mkState (store s) (S (blocksCount s)) (removedBlocksCount s) (emitted s)
             (demand s) (lockHeld s) (releases s) (deleteLog s)).

(** [removedBlocksCount++] *)
Definition incr_removedBlocksCount : M unit :=
  fun s =>
    (Normal (),
     mkState (store s) (blocksCount s) (S (removedBlocksCount s)) (emitted s)
             (demand s) (lockHeld s) (releases s) (deleteLog s)).

(** The function [gcLock.writeLock()] resolves to. *)
Definition release : M unit :=
  fun s =>
    (Normal (),
     mkState (store s) (blocksCount s) (removedBlocksCount s) (emitted s)
             (demand s) false (S (releases s)) (deleteLog s)).

(** [await gcLock.writeLock()] *)
Definition writeLock (rejects : option JsError) : M (M unit) :=
  fun s =>
    match rejects with
    | Some e => (Throw e, s)
    | None =>
        (Normal release,
         mkState (store s) (blocksCount s) (removedBlocksCount s) (emitted s)
                 (demand s) true (releases s) (deleteLog s))
    end.
End Effects.

Declare Scope gen_scope.
Delimit Scope gen_scope with gen.
Notation "x <- m ;; k" := (bind m (fun x => k))
  (at level 100, m at next level, right associativity) : gen_scope.
Notation "m ;; k" := (bind m (fun _ => k))
  (at level 100, right associativity) : gen_scope.

(** ** The collector *)

Section Collector.
Context {Store Raw : Type} (E : Env Store Raw).
Abbreviation State := (GcState Store).
Abbreviation M := (Gen Store).
Local Open Scope gen_scope.

(** [await repo.blocks.delete(cid)] *)
Definition repo_blocks_delete (c : CID) : M unit :=
  fun s =>
    match blocks_delete E (store s) c with
    | inl e =>
        (Throw e,
         mkState (store s) (blocksCount s) (removedBlocksCount s) (emitted s)
                 (demand s) (lockHeld s) (releases s)
                 (deleteLog s ++ [(c, Some e)]))
    | inr store' =>
        (Normal (),
         mkState store' (blocksCount s) (removedBlocksCount s) (emitted s)
                 (demand s) (lockHeld s) (releases s)
                 (deleteLog s ++ [(c, None)]))
    end.

(** [repo.blocks.query({ keysOnly: true })] *)
Definition repo_blocks_query : M (iter CID) :=
  fun s => await (blocks_query E (store s)) s.

(** *** [createMarkedSet] *)

(** [map(({ cid }) => cid, pin.ls())] *)
Definition pinsSource (w : World Raw) : iter CID :=
  map_iter pin_cid (pin_ls w).

(** [const cids = await pinManager.getInternalBlocks(); yield * cids] *)
Definition pinInternalsSource (w : World Raw) : iter CID :=
  match getInternalBlocks w with
  | inl e => IErr e
  | inr cids => iter_of_list cids
  end.

(** The third source: the MFS root and what [refs] reaches from it. *)
Definition mfsSource (w : World Raw) : iter CID :=
  match root_get w with
  | inl err =>
      if decide (code err = Some (ERR_NOT_FOUND E)) then INil else IErr err
  | inr mh =>
      match new_CID E mh with
      | inl e => IErr e
      | inr rootCid =>
          ICons rootCid (map_iter_throwing (new_CID E) (refs w rootCid))
      end
  end.

(** The [for await] loop over the merged sources:
    [output.add(multibase.encode('base32', cid.multihash).toString())]. *)
Fixpoint mark_all (output : gset string) (merged : iter CID)
  : JsError + gset string :=
  match merged with
  | INil => inr output
  | IErr e => inl e
  | ICons c rest =>
      match multibase_encode_base32 E (multihash c) with
      | inl e => inl e
      | inr b32 => mark_all ({[ b32 ]} ∪ output) rest
      end
  end.

Definition createMarkedSet (w : World Raw) : JsError + gset string :=
  mark_all ∅
    (parallelMerge (merge_schedule w)
       (pinsSource w) (pinInternalsSource w) (mfsSource w)).

(** *** [deleteUnmarkedBlocks] *)

Definition removeBlock (markedSet : gset string) (c : CID) : M (option Entry) :=
  incr_blocksCount ;;
  try_catch
    (b32 <- await (multibase_encode_base32 E (multihash c)) ;;
     if decide (b32 ∈ markedSet) then ret None
     else
       res <- try_catch
                (repo_blocks_delete c ;;
                 incr_removedBlocksCount ;;
                 ret (mkEntry (Some c) None))
                (fun err =>
                   ret (mkEntry (Some c)
                          (Some (new_Error
                             ("Could not delete block with CID " +:+
                              cid_toString E c +:+ ": " +:+ message err))))) ;;
       ret (Some res))
    (fun err =>
       let msg := "Could delete block with CID " +:+ cid_toString E c in
       ret (Some (mkEntry None
                    (Some (new_Error (msg +:+ ": " +:+ message err)))))).

(** [for await (const res of transform(concurrency, func, iterable)) body]
    with the calls of [func] taken one after the other, in the order of
    [iterable].  [transform] of streaming-iterables keeps up to
    [concurrency] calls in flight and hands their results over as they
    settle; the embedding does not represent that interleaving, so
    [concurrency] has no effect here. *)
Fixpoint for_await_transform {A B} (concurrency : nat) (func : A -> M B)
    (iterable : iter A) (body : B -> M unit) : M unit :=
  match iterable with
  | INil => ret ()
  | IErr e => throw e
  | ICons a rest =>
      res <- func a ;;
      body res ;;
      for_await_transform concurrency func rest body
  end.

Definition deleteUnmarkedBlocks (markedSet : gset string) (blockKeys : iter CID)
  : M unit :=
  for_await_transform BLOCK_RM_CONCURRENCY (removeBlock markedSet) blockKeys
    (fun res =>
       match res with
       | Some r => yield r
       | None => ret ()
       end).

(** *** [gc] *)

Definition gc (w : World Raw) : M unit :=
  release <- writeLock (writeLock_rejects w) ;;
  try_finally
    (markedSet <- await (createMarkedSet w) ;;
     blockKeys <- repo_blocks_query ;;
     deleteUnmarkedBlocks markedSet blockKeys)
    release.

(** A run of [gc] on a store, for a consumer. *)
Definition initial (s0 : Store) (consumer : option nat) : State :=
  mkState s0 0 0 [] consumer false 0 [].

Definition run_gc (w : World Raw) (consumer : option nat) (s0 : Store)
  : Completion unit * State :=
  gc w (initial s0 consumer).
End Collector.

(** ** What the collector relies on in the blockstore *)

(** Modelled from the spec: the blockstore ([repo.blocks] of ipfs-repo) is
    a collaborator outside this file.  The spec's data model identifies two
    CIDs when their multihash bytes are equal, and its interface gives
    [Query(keysOnly)] (every key of the store) and [Delete(identifier)].
    So: a delete that resolves removes the block of that multihash and
    nothing else, every key [query] yields is held by the store, and every
    block the store holds is yielded under some CID of its multihash when
    the enumeration does not reject. *)
Record BlockstoreLaws {Store Raw : Type} (E : Env Store Raw) : Prop := {
  delete_removes : forall s c s' k,
    blocks_delete E s c = inr s' ->
    multihash k = multihash c -> blocks_has E s' k = false;
  delete_keeps : forall s c s' k,
    blocks_delete E s c = inr s' ->
    multihash k <> multihash c -> blocks_has E s' k = blocks_has E s k;
  query_sound : forall s blockKeys k,
    blocks_query E s = inr blockKeys ->
    k ∈ items blockKeys -> blocks_has E s k = true;
  query_complete : forall s blockKeys k,
    blocks_query E s = inr blockKeys ->
    rejection blockKeys = None ->
    blocks_has E s k = true ->
    exists k', k' ∈ items blockKeys /\ multihash k' = multihash k
}.

(** ** Vocabulary of the properties *)

(** [sub] occurs in [s]. *)
Definition occurs_in (sub s : string) : Prop :=
  exists before after, s = before +:+ sub +:+ after.

Section Vocabulary.
Context {Store Raw : Type} (E : Env Store Raw).
Abbreviation State := (GcState Store).

(** The encoded identifier of a CID, when the encoder does not throw. *)
Definition encoded (c : CID) (b32 : string) : Prop :=
  multibase_encode_base32 E (multihash c) = inr b32.

(** The strings the merged sources put into the marked set, in the
    order of the items (an item whose encoding throws has none). *)
Definition encodings (cids : list CID) : list string :=
  omap (fun c =>
          match multibase_encode_base32 E (multihash c) with
          | inl _ => None
          | inr b32 => Some b32
          end) cids.

(** A source that neither rejects nor yields a CID the encoder throws
    on. *)
Definition clean (s : iter CID) : Prop :=
  rejection s = None /\
  Forall (fun c => exists b32, encoded c b32) (items s).

(** Everything the three sources yield. *)
Definition yielded_cids (w : World Raw) : list CID :=
  items (pinsSource w) ++ items (pinInternalsSource w) ++ items (mfsSource E w).

(** The state in which the [try] block of [gc] starts, and what
    [release()] makes of a state. *)
Definition locked (s0 : Store) (consumer : option nat) : State :=
  mkState s0 0 0 [] consumer true 0 [].

Definition unlocked (s : State) : State :=
  mkState (store s) (blocksCount s) (removedBlocksCount s) (emitted s)
          (demand s) false (S (releases s)) (deleteLog s).

(** One turn of the loop of [deleteUnmarkedBlocks]. *)
Definition sweep_key (markedSet : gset string) (k : CID) : Gen Store unit :=
  bind (removeBlock E markedSet k)
       (fun res => match res with Some r => yield r | None => ret () end).

(** The entry of a block whose delete rejected with [e]. *)
Definition delete_error_entry (k : CID) (e : JsError) : Entry :=
  mkEntry (Some k)
    (Some (new_Error ("Could not delete block with CID " +:+
                      cid_toString E k +:+ ": " +:+ message e))).

(** The entry of a block whose identifier could not be encoded. *)
Definition encode_error_entry (k : CID) (e : JsError) : Entry :=
  mkEntry None
    (Some (new_Error (("Could delete block with CID " +:+ cid_toString E k)
                      +:+ ": " +:+ message e))).

(** The four things a turn of the loop does to the state. *)
Inductive turn (markedSet : gset string) (k : CID) (s s' : State) : Prop :=
| turn_retained b32 :
    encoded k b32 -> b32 ∈ markedSet ->
    store s' = store s -> deleteLog s' = deleteLog s ->
    emitted s' = emitted s ->
    removedBlocksCount s' = removedBlocksCount s ->
    turn markedSet k s s'
| turn_deleted b32 :
    encoded k b32 -> b32 ∉ markedSet ->
    blocks_delete E (store s) k = inr (store s') ->
    deleteLog s' = deleteLog s ++ [(k, None)] ->
    emitted s' = emitted s ++ [mkEntry (Some k) None] ->
    removedBlocksCount s' = S (removedBlocksCount s) ->
    turn markedSet k s s'
| turn_delete_failed b32 e :
    encoded k b32 -> b32 ∉ markedSet ->
    blocks_delete E (store s) k = inl e ->
    store s' = store s ->
    deleteLog s' = deleteLog s ++ [(k, Some e)] ->
    emitted s' = emitted s ++ [delete_error_entry k e] ->
    removedBlocksCount s' = removedBlocksCount s ->
    turn markedSet k s s'
| turn_encode_failed e :
    multibase_encode_base32 E (multihash k) = inl e ->
    store s' = store s -> deleteLog s' = deleteLog s ->
    emitted s' = emitted s ++ [encode_error_entry k e] ->
    removedBlocksCount s' = removedBlocksCount s ->
    turn markedSet k s s'.

(** The reading of dead-block removal under which a block whose delete
    resolves leaves no entry: the turn of the loop for an unmarked block
    calls delete on it, and yields nothing when that call resolved. *)
Definition silent_on_success (markedSet : gset string) (k : CID) (s : State)
  : Prop :=
  forall b32, encoded k b32 -> b32 ∉ markedSet ->
    exists r,
      deleteLog (sweep_key markedSet k s).2 = deleteLog s ++ [(k, r)] /\
      (r = None -> emitted (sweep_key markedSet k s).2 = emitted s).
End Vocabulary.

(** The same world under another delivery order of [parallelMerge] and
    another outcome of the lock. *)
Definition same_sources {Raw : Type} (w w' : World Raw) : Prop :=
  pin_ls w' = pin_ls w /\
  getInternalBlocks w' = getInternalBlocks w /\
  root_get w' = root_get w /\
  refs w' = refs w.

(** ** Vocabulary of the further properties *)

Section Failures.
Context {Store Raw : Type} (E : Env Store Raw).

(** What stops the loop of [createMarkedSet] when it consumes a source on
    its own: the rejection of the source, or what the encoder throws on
    one of its CIDs, whichever comes first. *)
Fixpoint first_failure (s : iter CID) : option JsError :=
  match s with
  | INil => None
  | IErr e => Some e
  | ICons c rest =>
      match multibase_encode_base32 E (multihash c) with
      | inl e => Some e
      | inr _ => first_failure rest
      end
  end.

(** Whether [removeBlock] returns [null] for a key. *)
Definition retained (markedSet : gset string) (k : CID) : bool :=
  match multibase_encode_base32 E (multihash k) with
  | inl _ => false
  | inr b32 => bool_decide (b32 ∈ markedSet)
  end.
End Failures.

(** The delete calls of a log that resolved. *)
Definition resolved (call : CID * option JsError) : bool :=
  match call.2 with
  | None => true
  | Some _ => false
  end.

Definition resolved_calls (log : list (CID * option JsError)) : nat :=
  length (List.filter resolved log).

(** ** A small repository to run the collector on *)

#[global] Instance byte_eq_dec : EqDecision byte := Byte.byte_eq_dec.
#[global] Instance JsError_eq_dec : EqDecision JsError.
Proof. solve_decision. Defined.
#[global] Instance CID_eq_dec : EqDecision CID.
Proof. solve_decision. Defined.
#[global] Instance Entry_eq_dec : EqDecision Entry.
Proof. solve_decision. Defined.

Module Demo.
(** The store is the list of its keys; a key stands for the block of its
    multihash.  [failing] lists the CIDs whose delete rejects. *)
Definition holds (s : list CID) (c : CID) : bool :=
  existsb (fun k => bool_decide (multihash k = multihash c)) s.

Definition delete (failing : list CID) (s : list CID) (c : CID)
  : JsError + list CID :=
  if bool_decide (c ∈ failing) then inl (mkError "EIO" (Some "ERR_IO"))
  else inr (filter (fun k => multihash k <> multihash c) s).

(** A multihash is printed as the characters of its bytes; the empty
    one cannot be encoded. *)
Definition encode (mh : list byte) : JsError + string :=
  match mh with
  | [] => inl (new_Error "empty multihash")
  | _ => inr ("b" +:+ String.string_of_list_byte mh)
  end.

Definition toString (c : CID) : string :=
  String.string_of_list_byte (multihash c).

(** Raw identifiers are multihash bytes, read as version 1 raw CIDs. *)
Definition parse (raw : list byte) : JsError + CID :=
  match raw with
  | [] => inl (new_Error "invalid CID")
  | _ => inr (mkCID 1 "raw" raw)
  end.

Definition env (failing : list CID) : Env (list CID) (list byte) := {|
  multibase_encode_base32 := encode;
  cid_toString := toString;
  new_CID := parse;
  ERR_NOT_FOUND := "ERR_NOT_FOUND";
  blocks_query := fun s => inr (iter_of_list s);
  blocks_delete := delete failing;
  blocks_has := holds
|}.

Definition v1 (mh : list byte) : CID := mkCID 1 "raw" mh.
Definition v0 (mh : list byte) : CID := mkCID 0 "dag-pb" mh.

(** Blocks P (pinned), I (pin bookkeeping), R (MFS root), L (reachable
    from R) and the unreferenced X, Y, Z. *)
Definition blockP := v1 [x50]%byte.
Definition blockI := v1 [x49]%byte.
Definition blockR := v1 [x52]%byte.
Definition blockL := v1 [x4c]%byte.
Definition blockX := v1 [x58]%byte.
Definition blockY := v1 [x59]%byte.
Definition blockZ := v1 [x5a]%byte.
(** a block without a multihash: its identifier cannot be encoded *)
Definition blockBad := v1 [].

Definition notFound : JsError := mkError "Not Found" (Some "ERR_NOT_FOUND").
Definition ioError : JsError := mkError "disk failure" (Some "ERR_IO").

(** P is pinned and also reachable from the MFS root R. *)
Definition world : World (list byte) := {|
  writeLock_rejects := None;
  pin_ls := iter_of_list [ {| pin_cid := blockP |} ];
  getInternalBlocks := inr [blockI];
  root_get := inr [x52]%byte;
  refs := fun _ => iter_of_list [ [x4c]%byte; [x50]%byte ];
  merge_schedule := [FromMfs; FromPins; FromMfs]
|}.

(** The same repository without an MFS root, and with a root store
    that fails. *)
Definition world_no_mfs : World (list byte) := {|
  writeLock_rejects := None;
  pin_ls := pin_ls world;
  getInternalBlocks := getInternalBlocks world;
  root_get := inl notFound;
  refs := refs world;
  merge_schedule := merge_schedule world
|}.

Definition world_root_fails : World (list byte) := {|
  writeLock_rejects := None;
  pin_ls := pin_ls world;
  getInternalBlocks := getInternalBlocks world;
  root_get := inl ioError;
  refs := refs world;
  merge_schedule := merge_schedule world
|}.

(** [world] with another delivery order of the sources. *)
Definition world_rescheduled : World (list byte) := {|
  writeLock_rejects := None;
  pin_ls := pin_ls world;
  getInternalBlocks := getInternalBlocks world;
  root_get := root_get world;
  refs := refs world;
  merge_schedule := [FromPinInternals; FromPins]
|}.

Definition store0 : list CID :=
  [blockX; blockP; blockY; blockI; blockR; blockZ; blockL].

(** The marked set of [world]. *)
Definition marked : gset string := list_to_set ["bP"; "bI"; "bR"; "bL"].

(** The drained run in which deleting X fails. *)
Definition run_XYZ : Completion unit * GcState (list CID) :=
  run_gc (env [blockX]) world None store0.

(** Repositories on which the mark phase fails: [pin.ls()] rejects after
    P, [getInternalBlocks()] rejects, the refs walk yields a ref that is
    no CID. *)
Definition world_pins_reject : World (list byte) := {|
  writeLock_rejects := None;
  pin_ls := ICons {| pin_cid := blockP |} (IErr ioError);
  getInternalBlocks := getInternalBlocks world;
  root_get := root_get world;
  refs := refs world;
  merge_schedule := merge_schedule world
|}.

Definition world_internals_reject : World (list byte) := {|
  writeLock_rejects := None;
  pin_ls := pin_ls world;
  getInternalBlocks := inl ioError;
  root_get := root_get world;
  refs := refs world;
  merge_schedule := merge_schedule world
|}.

Definition world_bad_ref : World (list byte) := {|
  writeLock_rejects := None;
  pin_ls := pin_ls world;
  getInternalBlocks := getInternalBlocks world;
  root_get := root_get world;
  refs := fun _ => iter_of_list [ [x4c]%byte; [] ];
  merge_schedule := merge_schedule world
|}.

(** A repository without pins, pin bookkeeping and MFS root, and the
    repository of [world] with X pinned as well. *)
Definition world_empty : World (list byte) := {|
  writeLock_rejects := None;
  pin_ls := INil;
  getInternalBlocks := inr [];
  root_get := inl notFound;
  refs := refs world;
  merge_schedule := merge_schedule world
|}.

Definition world_X_pinned : World (list byte) := {|
  writeLock_rejects := None;
  pin_ls := iter_of_list [ {| pin_cid := blockP |}; {| pin_cid := blockX |} ];
  getInternalBlocks := getInternalBlocks world;
  root_get := root_get world;
  refs := refs world;
  merge_schedule := merge_schedule world
|}.

(** A repository whose lock cannot be acquired. *)
Definition world_locked_out : World (list byte) := {|
  writeLock_rejects := Some ioError;
  pin_ls := pin_ls world;
  getInternalBlocks := getInternalBlocks world;
  root_get := root_get world;
  refs := refs world;
  merge_schedule := merge_schedule world
|}.

(** A blockstore whose key enumeration rejects after the last key. *)
Definition env_flaky (failing : list CID) : Env (list CID) (list byte) := {|
  multibase_encode_base32 := encode;
  cid_toString := toString;
  new_CID := parse;
  ERR_NOT_FOUND := "ERR_NOT_FOUND";
  blocks_query := fun s => inr (iter_app (iter_of_list s) (IErr ioError));
  blocks_delete := delete failing;
  blocks_has := holds
|}.

(** A store with a key whose identifier cannot be encoded, and a store
    of live blocks only. *)
Definition store_bad : list CID := [blockX; blockBad; blockP].
Definition store_live : list CID := [blockP; blockI; blockR; blockL].
End Demo.

(** * Properties *)

(** ** The marked set *)

Section MarkedSet.
Context {Store Raw : Type} (E : Env Store Raw).
Implicit Types (s t : iter CID) (M output : gset string).

Lemma clean_nil : clean E INil.
Proof. split; [reflexivity | constructor]. Qed.

Lemma clean_err e : ~ clean E (IErr e).
Proof. intros [H _]; discriminate. Qed.

Lemma clean_cons x s :
  clean E (ICons x s) <-> (exists b32, encoded E x b32) /\ clean E s.
Proof.
  unfold clean; simpl. rewrite Forall_cons. tauto.
Qed.

Lemma clean_app s t : clean E (iter_app s t) <-> clean E s /\ clean E t.
Proof.
  induction s as [|e|x s IH]; simpl.
  - pose proof clean_nil. tauto.
  - pose proof (clean_err e). tauto.
  - rewrite !clean_cons, IH. tauto.
Qed.

Lemma items_app s t :
  rejection s = None -> items (iter_app s t) = items s ++ items t.
Proof.
  induction s as [|e|x s IH]; simpl; intros H; try done.
  by rewrite IH.
Qed.

(** The merged iterable is clean exactly when the three sources are. *)
Lemma parallelMerge_clean schedule (a b c : iter CID) :
  clean E (parallelMerge schedule a b c) <->
  clean E a /\ clean E b /\ clean E c.
Proof.
  revert a b c. induction schedule as [|src schedule IH]; intros a b c; simpl.
  - rewrite !clean_app. tauto.
  - destruct src.
    + destruct a as [|e|x a]; rewrite ?clean_cons, ?IH, ?clean_cons.
      * tauto.
      * pose proof (clean_err e). tauto.
      * tauto.
    + destruct b as [|e|x b]; rewrite ?clean_cons, ?IH, ?clean_cons.
      * tauto.
      * pose proof (clean_err e). tauto.
      * tauto.
    + destruct c as [|e|x c]; rewrite ?clean_cons, ?IH, ?clean_cons.
      * tauto.
      * pose proof (clean_err e). tauto.
      * tauto.
Qed.

(** Whatever the delivery order, the merge yields the items of the three
    sources. *)
Lemma parallelMerge_items schedule (a b c : iter CID) :
  rejection a = None -> rejection b = None -> rejection c = None ->
  items (parallelMerge schedule a b c) ≡ₚ items a ++ items b ++ items c.
Proof.
  revert a b c. induction schedule as [|src schedule IH];
    intros a b c Ha Hb Hc; simpl.
  - by rewrite !items_app.
  - destruct src.
    + destruct a as [|e|x a]; simpl in *; [by apply IH | done |].
      by rewrite IH.
    + destruct b as [|e|x b]; simpl in *; [by apply IH | done |].
      rewrite IH by done. by rewrite Permutation_middle.
    + destruct c as [|e|x c]; simpl in *; [by apply IH | done |].
      rewrite IH by done.
      rewrite (app_assoc (items a) (items b) (x :: items c)).
      rewrite <- Permutation_middle. by rewrite app_assoc.
Qed.

Lemma mark_all_clean output s :
  clean E s ->
  mark_all E output s = inr (list_to_set (encodings E (items s)) ∪ output).
Proof.
  revert output. induction s as [|e|x s IH]; intros output Hs; simpl.
  - f_equal. symmetry. apply union_empty_l_L.
  - by destruct (clean_err e).
  - apply clean_cons in Hs as [[b32 Hb] Hs]. unfold encoded in Hb.
    unfold encodings in *. simpl. rewrite Hb. rewrite IH by done.
    f_equal. simpl. rewrite (assoc_L (∪)). f_equal. apply (comm_L (∪)).
Qed.

Lemma mark_all_unclean output s :
  ~ clean E s -> exists e, mark_all E output s = inl e.
Proof.
  revert output. induction s as [|e|x s IH]; intros output Hs; simpl.
  - destruct Hs. apply clean_nil.
  - eauto.
  - destruct (multibase_encode_base32 E (multihash x)) as [e|b32] eqn:Hx; [eauto|].
    apply IH. intros Hc. apply Hs, clean_cons. split; [|done].
    by exists b32.
Qed.

Lemma mark_all_inr output s M :
  mark_all E output s = inr M ->
  clean E s /\ M = list_to_set (encodings E (items s)) ∪ output.
Proof.
  revert output M. induction s as [|e|x s IH]; intros output M HM; simpl in *.
  - split; [apply clean_nil|]. simplify_eq. symmetry. apply union_empty_l_L.
  - done.
  - destruct (multibase_encode_base32 E (multihash x)) as [e|b32] eqn:Hx;
      [done|].
    apply IH in HM as [Hc ->]. split.
    + apply clean_cons. split; [by exists b32 | done].
    + unfold encodings. rewrite (assoc_L (∪)). f_equal. apply (comm_L (∪)).
Qed.

Lemma encodings_perm (l l' : list CID) :
  l ≡ₚ l' ->
  list_to_set (C := gset string) (encodings E l) = list_to_set (encodings E l').
Proof.
  intros H. apply list_to_set_perm_L. unfold encodings. by rewrite H.
Qed.

(** [createMarkedSet] resolves exactly when no source rejects and every
    yielded CID can be encoded, and then to the set of the encodings. *)
Lemma createMarkedSet_inr (w : World Raw) M :
  createMarkedSet E w = inr M <->
  (clean E (pinsSource w) /\ clean E (pinInternalsSource w) /\
   clean E (mfsSource E w)) /\
  M = list_to_set (encodings E (yielded_cids E w)).
Proof.
  unfold createMarkedSet, yielded_cids. split.
  - intros HM. apply mark_all_inr in HM as [Hc ->].
    apply parallelMerge_clean in Hc as Hc'. split; [done|].
    destruct Hc' as ([Ha _] & [Hb _] & [Hc' _]).
    rewrite (encodings_perm _ _ (parallelMerge_items _ _ _ _ Ha Hb Hc')).
    apply union_empty_r_L.
  - intros [Hc ->]. rewrite mark_all_clean by by apply parallelMerge_clean.
    destruct Hc as ([Ha _] & [Hb _] & [Hc' _]).
    rewrite (encodings_perm _ _ (parallelMerge_items _ _ _ _ Ha Hb Hc')).
    f_equal. apply union_empty_r_L.
Qed.

Lemma createMarkedSet_inl (w : World Raw) :
  ~ (clean E (pinsSource w) /\ clean E (pinInternalsSource w) /\
     clean E (mfsSource E w)) ->
  exists e, createMarkedSet E w = inl e.
Proof.
  intros H. apply mark_all_unclean. by rewrite parallelMerge_clean.
Qed.

Lemma elem_of_encodings (l : list CID) x :
  x ∈ encodings E l <-> exists c, c ∈ l /\ encoded E c x.
Proof.
  unfold encodings, encoded. rewrite list_elem_of_omap.
  split; intros (c & Hc & Hx); exists c; split; try done.
  - by destruct (multibase_encode_base32 E (multihash c)); simplify_eq.
  - by rewrite Hx.
Qed.

(** A marked-set member is the encoding of a yielded CID, and the
    encoding of every yielded CID is a member. *)
Lemma createMarkedSet_elem (w : World Raw) M x :
  createMarkedSet E w = inr M ->
  x ∈ M <-> exists c, c ∈ yielded_cids E w /\ encoded E c x.
Proof.
  intros [_ ->]%createMarkedSet_inr.
  by rewrite elem_of_list_to_set, elem_of_encodings.
Qed.

(** Worlds with the same sources have the same marked set, whatever the
    delivery order. *)
Lemma createMarkedSet_same_sources (w w' : World Raw) M :
  same_sources w w' ->
  createMarkedSet E w = inr M -> createMarkedSet E w' = inr M.
Proof.
  intros (Hp & Hi & Hr & Hf). rewrite !createMarkedSet_inr.
  unfold yielded_cids, pinsSource, pinInternalsSource, mfsSource.
  by rewrite Hp, Hi, Hr, Hf.
Qed.
End MarkedSet.

(** ** One key of the sweep *)

Section RemoveBlock.
Context {Store Raw : Type} (E : Env Store Raw).
Implicit Types (s : GcState Store) (M : gset string) (k : CID).

Local Ltac run_removeBlock :=
  unfold removeBlock, bind, try_catch, await, ret, throw, incr_blocksCount,
    incr_removedBlocksCount, repo_blocks_delete; simpl.

Lemma removeBlock_retained M k s b32 :
  encoded E k b32 -> b32 ∈ M ->
  removeBlock E M k s = (Normal None, (incr_blocksCount s).2).
Proof.
  unfold encoded. intros Hk Hin. run_removeBlock. rewrite Hk. simpl.
  by rewrite decide_True.
Qed.

Lemma removeBlock_deleted M k s b32 store' :
  encoded E k b32 -> b32 ∉ M ->
  blocks_delete E (store s) k = inr store' ->
  removeBlock E M k s =
  (Normal (Some (mkEntry (Some k) None)),
   mkState store' (S (blocksCount s)) (S (removedBlocksCount s)) (emitted s)
           (demand s) (lockHeld s) (releases s) (deleteLog s ++ [(k, None)])).
Proof.
  unfold encoded. intros Hk Hin Hd. run_removeBlock. rewrite Hk. simpl.
  rewrite decide_False by done. simpl. by rewrite Hd.
Qed.

Lemma removeBlock_delete_failed M k s b32 e :
  encoded E k b32 -> b32 ∉ M ->
  blocks_delete E (store s) k = inl e ->
  removeBlock E M k s =
  (Normal (Some (delete_error_entry E k e)),
   mkState (store s) (S (blocksCount s)) (removedBlocksCount s) (emitted s)
           (demand s) (lockHeld s) (releases s) (deleteLog s ++ [(k, Some e)])).
Proof.
  unfold encoded. intros Hk Hin Hd. run_removeBlock. rewrite Hk. simpl.
  rewrite decide_False by done. simpl. by rewrite Hd.
Qed.

Lemma removeBlock_encode_failed M k s e :
  multibase_encode_base32 E (multihash k) = inl e ->
  removeBlock E M k s =
  (Normal (Some (encode_error_entry E k e)), (incr_blocksCount s).2).
Proof.
  intros Hk. run_removeBlock. by rewrite Hk.
Qed.

(** [removeBlock] never throws and never asks to stop: whatever happens
    to one block is handed to the loop as a value. *)
Lemma removeBlock_normal M k s :
  exists res s', removeBlock E M k s = (Normal res, s').
Proof.
  destruct (multibase_encode_base32 E (multihash k)) as [e|b32] eqn:Hk.
  - erewrite removeBlock_encode_failed by done. eauto.
  - destruct (decide (b32 ∈ M)).
    + erewrite removeBlock_retained by done. eauto.
    + destruct (blocks_delete E (store s) k) as [e|store'] eqn:Hd.
      * erewrite removeBlock_delete_failed by done. eauto.
      * erewrite removeBlock_deleted by done. eauto.
Qed.

(** What a turn of the loop leaves behind, and how it completes. *)
Lemma sweep_key_turn M k s :
  exists c s',
    sweep_key E M k s = (c, s') /\
    turn E M k s s' /\
    lockHeld s' = lockHeld s /\ releases s' = releases s /\
    (c = Normal () \/ c = Return) /\
    (demand s = None -> c = Normal () /\ demand s' = None).
Proof.
  unfold sweep_key, bind.
  destruct (multibase_encode_base32 E (multihash k)) as [e|b32] eqn:Hk.
  - rewrite (removeBlock_encode_failed _ _ _ _ Hk). unfold yield. simpl.
    destruct (demand s) as [[|n]|] eqn:Hd; simpl;
      (do 2 eexists; split; [reflexivity|]);
      (split; [by eapply turn_encode_failed|]); simpl; naive_solver.
  - destruct (decide (b32 ∈ M)).
    + rewrite (removeBlock_retained _ _ _ b32) by done. unfold ret. simpl.
      do 2 eexists; split; [reflexivity|].
      split; [by eapply turn_retained|]. simpl. naive_solver.
    + destruct (blocks_delete E (store s) k) as [e|store'] eqn:Hdel.
      * rewrite (removeBlock_delete_failed _ _ _ b32 e) by done.
        unfold yield. simpl.
        destruct (demand s) as [[|m]|] eqn:Hd; simpl;
          (do 2 eexists; split; [reflexivity|]);
          (split; [by eapply turn_delete_failed|]); simpl; naive_solver.
      * rewrite (removeBlock_deleted _ _ _ b32 store') by done.
        unfold yield. simpl.
        destruct (demand s) as [[|m]|] eqn:Hd; simpl;
          (do 2 eexists; split; [reflexivity|]);
          (split; [by eapply turn_deleted|]); simpl; naive_solver.
Qed.

Lemma deleteUnmarkedBlocks_cons M k rest s :
  deleteUnmarkedBlocks E M (ICons k rest) s =
  match sweep_key E M k s with
  | (Normal _, s') => deleteUnmarkedBlocks E M rest s'
  | (Throw e, s') => (Throw e, s')
  | (Return, s') => (Return, s')
  end.
Proof.
  unfold deleteUnmarkedBlocks, sweep_key. simpl. unfold bind.
  destruct (removeBlock_normal M k s) as (res & s' & ->).
  destruct res as [r|]; simpl.
  - by destruct (yield r s') as [[| |] ?].
  - done.
Qed.
End RemoveBlock.

(** ** The sweep *)

Section Sweep.
Context {Store Raw : Type} (E : Env Store Raw).
Implicit Types (s : GcState Store) (M : gset string) (k : CID).

(** A relation between states that every turn of the loop establishes,
    and that is reflexive and transitive, holds between the state a sweep
    starts in and the state it ends in, however it ends. *)
Lemma sweep_rel M (R : GcState Store -> GcState Store -> Prop) blockKeys :
  (forall s, R s s) ->
  (forall s1 s2 s3, R s1 s2 -> R s2 s3 -> R s1 s3) ->
  (forall k s s', k ∈ items blockKeys -> turn E M k s s' -> R s s') ->
  forall s c s', deleteUnmarkedBlocks E M blockKeys s = (c, s') -> R s s'.
Proof.
  intros Hrefl Htrans. induction blockKeys as [|e|k rest IH]; intros Hturn s c s'.
  - intros [= _ <-]. apply Hrefl.
  - intros [= _ <-]. apply Hrefl.
  - rewrite deleteUnmarkedBlocks_cons.
    destruct (sweep_key_turn E M k s) as (c1 & s1 & -> & Ht & _ & _ & Hc & _).
    assert (R s s1) by (apply (Hturn k); [simpl; left | done]).
    destruct Hc as [-> | ->].
    + intros Hrest. apply (Htrans _ s1); [done|].
      eapply IH; [|done]. intros k' ? ? ? ?.
      apply (Hturn k'); [simpl; by right | done].
    + by intros [= _ <-].
Qed.

(** The sweep does not touch the lock. *)
Lemma sweep_lock M blockKeys s c s' :
  deleteUnmarkedBlocks E M blockKeys s = (c, s') ->
  lockHeld s' = lockHeld s /\ releases s' = releases s.
Proof.
  revert s c s'. induction blockKeys as [|e|k rest IH]; intros s c s'.
  - by intros [= _ <-].
  - by intros [= _ <-].
  - rewrite deleteUnmarkedBlocks_cons.
    destruct (sweep_key_turn E M k s) as (c1 & s1 & -> & _ & Hl & Hr & Hc & _).
    destruct Hc as [-> | ->].
    + intros [??]%IH. split; congruence.
    + by intros [= _ <-].
Qed.

(** Every delete call of a sweep is on an enumerated key whose encoded
    identifier is not in the marked set. *)
Lemma sweep_deleteLog M blockKeys s c s' :
  deleteUnmarkedBlocks E M blockKeys s = (c, s') ->
  forall k r, (k, r) ∈ deleteLog s' ->
    (k, r) ∈ deleteLog s \/
    (k ∈ items blockKeys /\ exists b32, encoded E k b32 /\ b32 ∉ M).
Proof.
  apply (sweep_rel M (fun s s' =>
    forall k r, (k, r) ∈ deleteLog s' ->
      (k, r) ∈ deleteLog s \/
      (k ∈ items blockKeys /\ exists b32, encoded E k b32 /\ b32 ∉ M))).
  - auto.
  - intros s1 s2 s3 H12 H23 k r [H|H]%H23; [by apply H12 | by right].
  - intros k s1 s2 Hk Ht k' r Hin.
    destruct Ht as [b ? ? ? Hl ? ?|b ? ? ? Hl ? ?|b e ? ? ? ? Hl ? ?|e ? ? Hl ? ?];
      rewrite Hl in Hin; try (by left);
      apply elem_of_app in Hin as [Hin|Hin]; try (by left);
      apply list_elem_of_singleton in Hin; simplify_eq; right; eauto.
Qed.

(** Every entry a sweep yields is one of the three entries of an
    enumerated key. *)
Lemma sweep_emitted M blockKeys s c s' :
  deleteUnmarkedBlocks E M blockKeys s = (c, s') ->
  forall en, en ∈ emitted s' ->
    en ∈ emitted s \/
    (exists k, k ∈ items blockKeys /\
       ((exists b32, encoded E k b32 /\ (b32 ∉ M) /\
           (en = mkEntry (Some k) None \/
            (exists e, en = delete_error_entry E k e))) \/
        (exists e, multibase_encode_base32 E (multihash k) = inl e /\
           en = encode_error_entry E k e))).
Proof.
  apply (sweep_rel M (fun s s' =>
    forall en, en ∈ emitted s' ->
      en ∈ emitted s \/
      (exists k, k ∈ items blockKeys /\
         ((exists b32, encoded E k b32 /\ (b32 ∉ M) /\
             (en = mkEntry (Some k) None \/
              (exists e, en = delete_error_entry E k e))) \/
          (exists e, multibase_encode_base32 E (multihash k) = inl e /\
             en = encode_error_entry E k e))))).
  - auto.
  - intros s1 s2 s3 H12 H23 en [H|H]%H23; [by apply H12 | by right].
  - intros k s1 s2 Hk Ht en Hin.
    destruct Ht as [b ? ? ? ? Ho ?|b ? ? ? ? Ho ?|b e ? ? ? ? ? Ho ?|e ? ? ? Ho ?];
      rewrite Ho in Hin; try (by left);
      apply elem_of_app in Hin as [Hin|Hin]; try (by left);
      apply list_elem_of_singleton in Hin; subst en; right; exists k;
      (split; [done|]); [left | left | right]; eauto 10.
Qed.

(** What was logged or yielded before stays logged and yielded. *)
Lemma sweep_mono M blockKeys s c s' :
  deleteUnmarkedBlocks E M blockKeys s = (c, s') ->
  (forall x, x ∈ deleteLog s -> x ∈ deleteLog s') /\
  (forall en, en ∈ emitted s -> en ∈ emitted s').
Proof.
  apply (sweep_rel M (fun s s' =>
    (forall x, x ∈ deleteLog s -> x ∈ deleteLog s') /\
    (forall en, en ∈ emitted s -> en ∈ emitted s'))).
  - auto.
  - intros s1 s2 s3 [??] [??]; auto.
  - intros k s1 s2 _ Ht.
    destruct Ht as [b ? ? ? Hl Ho ?|b ? ? ? Hl Ho ?|b e ? ? ? ? Hl Ho ?|e ? ? Hl Ho ?];
      rewrite Hl, Ho; split; intros; rewrite ?elem_of_app; auto.
Qed.

(** A sweep over keys that are all marked (or cannot be encoded) calls
    delete on nothing. *)
Lemma sweep_all_marked M blockKeys s c s' :
  (forall k b32, k ∈ items blockKeys -> encoded E k b32 -> b32 ∈ M) ->
  deleteUnmarkedBlocks E M blockKeys s = (c, s') ->
  store s' = store s /\ deleteLog s' = deleteLog s /\
  removedBlocksCount s' = removedBlocksCount s.
Proof.
  intros Hall.
  apply (sweep_rel M (fun s s' =>
    store s' = store s /\ deleteLog s' = deleteLog s /\
    removedBlocksCount s' = removedBlocksCount s)).
  - auto.
  - intros s1 s2 s3 (?&?&?) (?&?&?). repeat split; congruence.
  - intros k s1 s2 Hk Ht.
    destruct Ht as [b ? ? ? ? ? ?|b Hb Hn ? ? ? ?|b e Hb Hn ? ? ? ? ?|e ? ? ? ? ?];
      try done; by destruct Hn; apply (Hall k).
Qed.

Section WithLaws.
Hypothesis laws : BlockstoreLaws E.

(** A block the store holds after a sweep was held before it. *)
Lemma sweep_shrinks M blockKeys s c s' :
  deleteUnmarkedBlocks E M blockKeys s = (c, s') ->
  forall k, blocks_has E (store s') k = true ->
            blocks_has E (store s) k = true.
Proof.
  apply (sweep_rel M (fun s s' =>
    forall k, blocks_has E (store s') k = true ->
              blocks_has E (store s) k = true)).
  - auto.
  - intros s1 s2 s3 H12 H23 k ?. auto.
  - intros k s1 s2 _ Ht k' Hh.
    destruct Ht as [b ? ? Hs ? ? ?|b ? ? Hd ? ? ?|b e ? ? ? Hs ? ? ?|e ? Hs ? ? ?];
      try (by rewrite <- Hs).
    destruct (decide (multihash k' = multihash k)) as [Heq|Hne].
    + rewrite (delete_removes E laws _ _ _ _ Hd Heq) in Hh. done.
    + by rewrite <- (delete_keeps E laws _ _ _ _ Hd Hne).
Qed.

(** A sweep leaves the block of a marked identifier where it is. *)
Lemma sweep_keeps_marked M blockKeys s c s' k b32 :
  encoded E k b32 -> b32 ∈ M ->
  deleteUnmarkedBlocks E M blockKeys s = (c, s') ->
  blocks_has E (store s') k = blocks_has E (store s) k.
Proof.
  intros Hk Hin.
  apply (sweep_rel M (fun s s' =>
    blocks_has E (store s') k = blocks_has E (store s) k)).
  - auto.
  - intros s1 s2 s3 H12 H23. congruence.
  - intros k' s1 s2 _ Ht.
    destruct Ht as [b ? ? Hs ? ? ?|b Hb Hn Hd ? ? ?|b e ? ? ? Hs ? ? ?|e ? Hs ? ? ?];
      try (by rewrite Hs).
    apply (delete_keeps E laws _ _ _ _ Hd).
    intros Heq. unfold encoded in *. rewrite Heq, Hb in Hk. by simplify_eq.
Qed.

(** Every delete call of a sweep is accounted for: one that rejected
    by the entry [{ cid, err }], one that resolved by the entry
    [{ cid }] and by the block being gone. *)
Lemma sweep_accounted M blockKeys s c s' :
  deleteUnmarkedBlocks E M blockKeys s = (c, s') ->
  (forall k e, (k, Some e) ∈ deleteLog s' ->
     (k, Some e) ∈ deleteLog s \/ delete_error_entry E k e ∈ emitted s') /\
  (forall k, (k, None) ∈ deleteLog s' ->
     (k, None) ∈ deleteLog s \/
     (mkEntry (Some k) None ∈ emitted s' /\
      forall k', multihash k' = multihash k ->
                 blocks_has E (store s') k' = false)).
Proof.
  intros Hrun.
  cut ((forall en, en ∈ emitted s -> en ∈ emitted s') /\
       (forall k, blocks_has E (store s') k = true ->
                  blocks_has E (store s) k = true) /\
       (forall k e, (k, Some e) ∈ deleteLog s' ->
          (k, Some e) ∈ deleteLog s \/
          delete_error_entry E k e ∈ emitted s') /\
       (forall k, (k, None) ∈ deleteLog s' ->
          (k, None) ∈ deleteLog s \/
          (mkEntry (Some k) None ∈ emitted s' /\
           forall k', multihash k' = multihash k ->
                      blocks_has E (store s') k' = false))); [tauto|].
  revert s c s' Hrun.
  apply (sweep_rel M (fun s s' =>
    (forall en, en ∈ emitted s -> en ∈ emitted s') /\
    (forall k, blocks_has E (store s') k = true ->
               blocks_has E (store s) k = true) /\
    (forall k e, (k, Some e) ∈ deleteLog s' ->
       (k, Some e) ∈ deleteLog s \/
       delete_error_entry E k e ∈ emitted s') /\
    (forall k, (k, None) ∈ deleteLog s' ->
       (k, None) ∈ deleteLog s \/
       (mkEntry (Some k) None ∈ emitted s' /\
        forall k', multihash k' = multihash k ->
                   blocks_has E (store s') k' = false)))).
  - auto.
  - intros s1 s2 s3 (Ho12 & Hs12 & Hf12 & Hd12) (Ho23 & Hs23 & Hf23 & Hd23).
    repeat split; auto.
    + intros k e [H|H]%Hf23; [|by right].
      apply Hf12 in H as [H'|H']; auto.
    + intros k [H|H]%Hd23; [|by right].
      apply Hd12 in H as [H'|[H1 H2]]; [by left|]. right. split; [auto|].
      intros k' Heq. specialize (H2 k' Heq).
      destruct (blocks_has E (store s3) k') eqn:Hh; [|done].
      apply Hs23 in Hh. congruence.
  - intros k s1 s2 _ Ht.
    destruct Ht as [b _ _ Hs Hl Ho _|b _ _ Hd Hl Ho _
                   |b e _ _ _ Hs Hl Ho _|e _ Hs Hl Ho _];
      rewrite Hl, Ho.
    + rewrite Hs. auto.
    + split; [intros; apply elem_of_app; auto|]. split; [|split].
      * intros k' Hh.
        destruct (decide (multihash k' = multihash k)) as [Heq|Hne].
        -- by rewrite (delete_removes E laws _ _ _ _ Hd Heq) in Hh.
        -- by rewrite <- (delete_keeps E laws _ _ _ _ Hd Hne).
      * intros k' e [Hin|Hin]%elem_of_app; [by left|].
        by apply list_elem_of_singleton in Hin.
      * intros k' [Hin|Hin]%elem_of_app; [by left|].
        apply list_elem_of_singleton in Hin. simplify_eq. right. split.
        -- apply elem_of_app. right. by left.
        -- intros k'' Heq. by apply (delete_removes E laws _ _ _ _ Hd).
    + rewrite Hs. split; [intros; apply elem_of_app; auto|].
      split; [auto|]. split.
      * intros k' e' [Hin|Hin]%elem_of_app; [by left|].
        apply list_elem_of_singleton in Hin. simplify_eq. right.
        apply elem_of_app. right. by left.
      * intros k' [Hin|Hin]%elem_of_app; [by left|].
        by apply list_elem_of_singleton in Hin.
    + rewrite Hs. split; [intros; apply elem_of_app; auto|]. auto.
Qed.
End WithLaws.

(** A sweep that is drained, over an enumeration that does not reject,
    completes normally and has called delete on every unmarked key. *)
Lemma sweep_drained M blockKeys s :
  demand s = None -> rejection blockKeys = None ->
  exists s',
    deleteUnmarkedBlocks E M blockKeys s = (Normal (), s') /\
    demand s' = None /\
    forall k b32, k ∈ items blockKeys -> encoded E k b32 -> b32 ∉ M ->
      exists r, (k, r) ∈ deleteLog s'.
Proof.
  revert s. induction blockKeys as [|e|k0 rest IH]; intros s Hd Hr.
  - exists s. split; [done|]. split; [done|]. intros k b Hk. inversion Hk.
  - done.
  - rewrite deleteUnmarkedBlocks_cons.
    destruct (sweep_key_turn E M k0 s) as (c1 & s1 & -> & Ht & _ & _ & _ & Hn).
    destruct (Hn Hd) as [-> Hd1].
    destruct (IH s1 Hd1 Hr) as (s' & Hrest & Hd' & Hall).
    exists s'. split; [done|]. split; [done|].
    intros k b Hk Hb Hnot. simpl in Hk.
    apply elem_of_cons in Hk as [->|Hk]; [|by eapply Hall].
    destruct (sweep_mono _ _ _ _ _ Hrest) as [Hlog _].
    destruct Ht as [b' Hb' Hin ? ? ? ?|b' ? ? ? Hl ? ?
                   |b' e ? ? ? ? Hl ? ?|e He ? ? ? ?].
    + unfold encoded in *. rewrite Hb in Hb'. by simplify_eq.
    + exists None. apply Hlog. rewrite Hl. apply elem_of_app. right. by left.
    + exists (Some e). apply Hlog. rewrite Hl. apply elem_of_app. right. by left.
    + unfold encoded in *. rewrite Hb in He. done.
Qed.

(** A sweep completes normally only if the enumeration did not reject. *)
Lemma sweep_normal M blockKeys s s' :
  deleteUnmarkedBlocks E M blockKeys s = (Normal (), s') ->
  rejection blockKeys = None.
Proof.
  revert s. induction blockKeys as [|e|k rest IH]; intros s; simpl.
  - done.
  - done.
  - rewrite deleteUnmarkedBlocks_cons.
    destruct (sweep_key_turn E M k s) as (c1 & s1 & -> & _ & _ & _ & Hc & _).
    destruct Hc as [-> | ->]; [apply IH | done].
Qed.
End Sweep.

(** ** A run of [gc] *)

Section Run.
Context {Store Raw : Type} (E : Env Store Raw).
Implicit Types (w : World Raw) (M : gset string) (k : CID).

(** When the lock cannot be acquired nothing else happens. *)
Lemma run_gc_lock_rejected w consumer s0 e :
  writeLock_rejects w = Some e ->
  run_gc E w consumer s0 = (Throw e, initial s0 consumer).
Proof.
  intros H. unfold run_gc, gc, bind, writeLock. by rewrite H.
Qed.

(** With the lock acquired, the [try] block runs from [locked] and
    [release()] runs on whatever state it ends in. *)
Lemma run_gc_acquired w consumer s0 :
  writeLock_rejects w = None ->
  run_gc E w consumer s0 =
  match createMarkedSet E w with
  | inl e => (Throw e, unlocked (locked s0 consumer))
  | inr M =>
      match blocks_query E s0 with
      | inl e => (Throw e, unlocked (locked s0 consumer))
      | inr blockKeys =>
          let r := deleteUnmarkedBlocks E M blockKeys (locked s0 consumer) in
          (r.1, unlocked r.2)
      end
  end.
Proof.
  intros H. unfold run_gc, gc, bind, writeLock, try_finally, release.
  rewrite H. simpl. unfold await, repo_blocks_query, await, throw, ret.
  destruct (createMarkedSet E w) as [e|M]; simpl; [done|].
  destruct (blocks_query E s0) as [e|blockKeys]; simpl; [done|].
  fold (locked s0 consumer).
  by destruct (deleteUnmarkedBlocks E M blockKeys (locked s0 consumer)).
Qed.

(** A run whose mark phase fails throws, having deleted and yielded
    nothing. *)
Lemma run_gc_mark_failed w consumer s0 e :
  createMarkedSet E w = inl e ->
  exists e', (run_gc E w consumer s0).1 = Throw e' /\
    (writeLock_rejects w = None -> e' = e) /\
    deleteLog (run_gc E w consumer s0).2 = [] /\
    emitted (run_gc E w consumer s0).2 = [] /\
    store (run_gc E w consumer s0).2 = s0.
Proof.
  intros He. destruct (writeLock_rejects w) as [e'|] eqn:Hl.
  - rewrite (run_gc_lock_rejected _ _ _ _ Hl). by exists e'.
  - rewrite (run_gc_acquired _ _ _ Hl), He. by exists e.
Qed.

(** In a run whose mark phase resolved to [M], the block of a marked
    identifier sees no delete call and no entry. *)
Lemma run_gc_marked_untouched w consumer s0 M k b32 :
  createMarkedSet E w = inr M -> encoded E k b32 -> b32 ∈ M ->
  (forall r, (k, r) ∉ deleteLog (run_gc E w consumer s0).2) /\
  (forall en, en ∈ emitted (run_gc E w consumer s0).2 -> cid en <> Some k).
Proof.
  intros HM Hk Hin. destruct (writeLock_rejects w) as [e'|] eqn:Hl.
  { rewrite (run_gc_lock_rejected _ _ _ _ Hl). simpl.
    split; intros ? H; inversion H. }
  rewrite (run_gc_acquired _ _ _ Hl), HM.
  destruct (blocks_query E s0) as [e|blockKeys]; simpl.
  { split; intros ? H; inversion H. }
  destruct (deleteUnmarkedBlocks E M blockKeys (locked s0 consumer))
    as [c s] eqn:Hrun. simpl. split.
  - intros r Hr.
    destruct (sweep_deleteLog E _ _ _ _ _ Hrun _ _ Hr) as [H|(_ & b & Hb & Hn)].
    + inversion H.
    + unfold encoded in *. rewrite Hk in Hb. by simplify_eq.
  - intros en Hen Hc.
    destruct (sweep_emitted E _ _ _ _ _ Hrun _ Hen)
      as [H|(k' & _ & [(b & Hb & Hn & [->|[e ->]])|(e & _ & ->)])];
      simpl in *; try (by inversion H); simplify_eq;
      unfold encoded in *; rewrite Hk in Hb; by simplify_eq.
Qed.

(** ... and the store holds it after the run if it held it before. *)
Lemma run_gc_marked_kept w consumer s0 M k b32 :
  BlockstoreLaws E ->
  createMarkedSet E w = inr M -> encoded E k b32 -> b32 ∈ M ->
  blocks_has E (store (run_gc E w consumer s0).2) k = blocks_has E s0 k.
Proof.
  intros laws HM Hk Hin. destruct (writeLock_rejects w) as [e'|] eqn:Hl.
  { by rewrite (run_gc_lock_rejected _ _ _ _ Hl). }
  rewrite (run_gc_acquired _ _ _ Hl), HM.
  destruct (blocks_query E s0) as [e|blockKeys]; simpl; [done|].
  destruct (deleteUnmarkedBlocks E M blockKeys (locked s0 consumer))
    as [c s] eqn:Hrun. simpl.
  by rewrite (sweep_keeps_marked E laws _ _ _ _ _ _ _ Hk Hin Hrun).
Qed.

(** A drained run on which nothing but single deletes can fail:
    the lock is acquired, the mark phase resolves to [M], and the
    enumeration [blockKeys] of the store neither throws nor rejects. *)
Lemma run_gc_drained w s0 M blockKeys :
  writeLock_rejects w = None ->
  createMarkedSet E w = inr M ->
  blocks_query E s0 = inr blockKeys ->
  rejection blockKeys = None ->
  exists s,
    deleteUnmarkedBlocks E M blockKeys (locked s0 None) = (Normal (), s) /\
    run_gc E w None s0 = (Normal (), unlocked s) /\
    forall k b32, k ∈ items blockKeys -> encoded E k b32 -> b32 ∉ M ->
      exists r, (k, r) ∈ deleteLog s.
Proof.
  intros Hl HM Hq Hr.
  destruct (sweep_drained E M blockKeys (locked s0 None) eq_refl Hr)
    as (s & Hrun & _ & Hall).
  exists s. split; [done|]. split; [|done].
  by rewrite (run_gc_acquired _ _ _ Hl), HM, Hq, Hrun.
Qed.
End Run.

(** ** The MFS source *)

Section MfsSource.
Context {Store Raw : Type} (E : Env Store Raw).

Lemma mark_all_app output (s t : iter CID) :
  clean E s ->
  mark_all E output (iter_app s t) =
  mark_all E (list_to_set (encodings E (items s)) ∪ output) t.
Proof.
  revert output. induction s as [|e|x s IH]; intros output Hs; simpl.
  - f_equal. unfold encodings. simpl. by rewrite union_empty_l_L.
  - by destruct (clean_err E e).
  - apply clean_cons in Hs as [[b32 Hb] Hs]. unfold encoded in Hb.
    rewrite Hb, IH by done. f_equal. unfold encodings. simpl.
    rewrite (assoc_L (∪)). f_equal. apply (comm_L (∪)).
Qed.

(** When only the third source rejects, the merge rejects with its
    rejection, whatever the delivery order. *)
Lemma mark_all_third_rejects schedule output (a b : iter CID) e :
  clean E a -> clean E b ->
  mark_all E output (parallelMerge schedule a b (IErr e)) = inl e.
Proof.
  revert output a b. induction schedule as [|src schedule IH];
    intros output a b Ha Hb; simpl.
  - by rewrite !mark_all_app.
  - destruct src.
    + destruct a as [|e'|x a]; simpl.
      * by apply IH.
      * by destruct (clean_err E e').
      * apply clean_cons in Ha as [[b32 Hx] Ha]. unfold encoded in Hx.
        rewrite Hx. by apply IH.
    + destruct b as [|e'|x b]; simpl.
      * by apply IH.
      * by destruct (clean_err E e').
      * apply clean_cons in Hb as [[b32 Hx] Hb]. unfold encoded in Hx.
        rewrite Hx. by apply IH.
    + done.
Qed.

(** If the iterable built with [new CID(ref)] does not reject, every
    [ref] was turned into a CID that it yields. *)
Lemma map_iter_throwing_items (s : iter Raw) (ref : Raw) :
  rejection (map_iter_throwing (new_CID E) s) = None ->
  ref ∈ items s ->
  exists c, new_CID E ref = inr c /\
            c ∈ items (map_iter_throwing (new_CID E) s).
Proof.
  induction s as [|e|x s IH]; simpl; intros Hr Hin.
  - inversion Hin.
  - inversion Hin.
  - destruct (new_CID E x) as [e|c] eqn:Hx; simpl in *; [done|].
    apply elem_of_cons in Hin as [->|Hin].
    + exists c. split; [done | by left].
    + destruct (IH Hr Hin) as (c' & ? & ?). exists c'. split; [done | by right].
Qed.
End MfsSource.

(** ** The small repository obeys the blockstore laws *)

Lemma Demo_holds_filter (s : list CID) (c k : CID) :
  Demo.holds (filter (fun x => multihash x <> multihash c) s) k =
  if decide (multihash k = multihash c) then false else Demo.holds s k.
Proof.
  unfold Demo.holds. induction s as [|x s IH]; simpl.
  - by destruct (decide _).
  - rewrite filter_cons. destruct (decide (multihash x <> multihash c)) as [Hx|Hx];
      simpl; rewrite IH; destruct (decide (multihash k = multihash c)) as [Hk|Hk];
      try done.
    + rewrite bool_decide_eq_false_2; [done|congruence].
    + rewrite bool_decide_eq_false_2; [done|].
      intros Heq. apply Hk. rewrite <- Heq.
      by destruct (decide (multihash x = multihash c)).
Qed.

Lemma Demo_items_of_list {A} (l : list A) : items (iter_of_list l) = l.
Proof. induction l; simpl; congruence. Qed.

Lemma Demo_rejection_of_list {A} (l : list A) : rejection (iter_of_list l) = None.
Proof. by induction l. Qed.

Lemma Demo_laws (failing : list CID) : BlockstoreLaws (Demo.env failing).
Proof.
  split; simpl.
  - intros s c s' k Hd Heq. unfold Demo.delete in Hd.
    destruct (bool_decide (c ∈ failing)); simplify_eq.
    rewrite Demo_holds_filter. by rewrite decide_True.
  - intros s c s' k Hd Hne. unfold Demo.delete in Hd.
    destruct (bool_decide (c ∈ failing)); simplify_eq.
    rewrite Demo_holds_filter. by rewrite decide_False.
  - intros s blockKeys k [= <-]. rewrite Demo_items_of_list. intros Hk.
    unfold Demo.holds. apply existsb_exists. exists k.
    split; [by apply list_elem_of_In | by apply bool_decide_eq_true].
  - intros s blockKeys k [= <-] _ Hh. rewrite Demo_items_of_list.
    unfold Demo.holds in Hh. apply existsb_exists in Hh as (k' & Hin & Heq).
    exists k'. split; [by apply list_elem_of_In | by apply bool_decide_eq_true in Heq].
Qed.

(** The collector on the small repository: P, I, R and L are marked, the
    delete of X rejects, Y and Z are removed. *)
Example demo_marked :
  createMarkedSet (Demo.env [Demo.blockX]) Demo.world = inr Demo.marked.
Proof. vm_compute. reflexivity. Qed.

Example demo_run :
  Demo.run_XYZ.1 = Normal () /\
  emitted Demo.run_XYZ.2 =
    [ mkEntry (Some Demo.blockX)
        (Some (new_Error "Could not delete block with CID X: EIO"));
      mkEntry (Some Demo.blockY) None;
      mkEntry (Some Demo.blockZ) None ] /\
  store Demo.run_XYZ.2 =
    [Demo.blockX; Demo.blockP; Demo.blockI; Demo.blockR; Demo.blockL] /\
  blocksCount Demo.run_XYZ.2 = 7 /\
  removedBlocksCount Demo.run_XYZ.2 = 2 /\
  releases Demo.run_XYZ.2 = 1.
Proof. repeat split. Qed.

(** A consumer that stops at the first entry. *)
Example demo_early_return :
  run_gc (Demo.env [Demo.blockX]) Demo.world (Some 0) Demo.store0 =
  (Return,
   mkState Demo.store0 1 0
     [ mkEntry (Some Demo.blockX)
         (Some (new_Error "Could not delete block with CID X: EIO")) ]
     (Some 0) false 1
     [ (Demo.blockX, Some (mkError "EIO" (Some "ERR_IO"))) ]).
Proof. reflexivity. Qed.

(** ** The claims *)

(** C1 — liveness preservation.  A block whose key the sweep enumerates
    and whose encoded identifier is in the marked set is retained:
    [removeBlock] returns [null] for it in every state, the run calls
    delete on it never, none of the entries the run yields carries it, and
    the store still holds it when the run is over, however the run ends
    and however much of it the consumer takes. *)
Theorem marked_block_survives {Store Raw : Type} (E : Env Store Raw)
    (w : World Raw) (consumer : option nat) (s0 : Store)
    (M : gset string) (blockKeys : iter CID) (k : CID) (b32 : string) :
  BlockstoreLaws E ->
  createMarkedSet E w = inr M ->
  blocks_query E s0 = inr blockKeys -> k ∈ items blockKeys ->
  encoded E k b32 -> b32 ∈ M ->
  (forall s, removeBlock E M k s = (Normal None, (incr_blocksCount s).2)) /\
  (forall r, (k, r) ∉ deleteLog (run_gc E w consumer s0).2) /\
  (forall en, en ∈ emitted (run_gc E w consumer s0).2 -> cid en <> Some k) /\
  blocks_has E (store (run_gc E w consumer s0).2) k = true.
Proof.
  intros laws HM Hq Hk Hb Hin. split; [|split; [|split]].
  - intros s. by apply (removeBlock_retained E M k s b32).
  - by apply (run_gc_marked_untouched E w consumer s0 M k b32).
  - by apply (run_gc_marked_untouched E w consumer s0 M k b32).
  - rewrite (run_gc_marked_kept E w consumer s0 M k b32) by done.
    by apply (query_sound E laws s0 blockKeys).
Qed.

Lemma marked_block_survives_witness :
  (forall s, removeBlock (Demo.env [Demo.blockX]) Demo.marked Demo.blockP s =
             (Normal None, (incr_blocksCount s).2)) /\
  (forall r, (Demo.blockP, r) ∉ deleteLog Demo.run_XYZ.2) /\
  (forall en, en ∈ emitted Demo.run_XYZ.2 -> cid en <> Some Demo.blockP) /\
  Demo.holds (store Demo.run_XYZ.2) Demo.blockP = true.
Proof.
  apply (marked_block_survives (Demo.env [Demo.blockX]) Demo.world None
           Demo.store0 Demo.marked (iter_of_list Demo.store0) Demo.blockP "bP").
  - apply Demo_laws.
  - vm_compute. reflexivity.
  - reflexivity.
  - apply (bool_decide_unpack _). vm_compute. exact I.
  - reflexivity.
  - apply (bool_decide_unpack _). vm_compute. exact I.
Defined.

(** C2 — dead-block removal, as the code does it.  Read as "a block whose
    delete resolves leaves no entry", the property fails: [removeBlock]
    returns [{ cid }] for it and the loop yields every non-null result. *)
Lemma removal_is_not_silent :
  ~ silent_on_success (Demo.env [Demo.blockX]) Demo.marked Demo.blockY
      (locked Demo.store0 None).
Proof.
  intros H. destruct (H "bY") as (r & Hlog & Hout).
  - reflexivity.
  - apply (bool_decide_unpack _). vm_compute. exact I.
  - vm_compute in Hlog. injection Hlog as <-.
    specialize (Hout eq_refl). vm_compute in Hout. discriminate.
Qed.

(** C2, amended — for every block whose encoded identifier is not in the
    marked set, [removeBlock] calls delete once and returns an entry that
    carries the block's cid whether the call resolved or rejected, with an
    [err] exactly when it rejected; the loop yields that entry.  So in a
    drained run (lock acquired, mark phase resolved, enumeration neither
    throwing nor rejecting) every enumerated unmarked block has a delete
    call, and every delete call has its entry: [{ cid }] for one that
    resolved, [{ cid, err }] for one that rejected. *)
Theorem unmarked_block_is_reported {Store Raw : Type} (E : Env Store Raw)
    (w : World Raw) (s0 : Store) (M : gset string) (blockKeys : iter CID) :
  BlockstoreLaws E ->
  writeLock_rejects w = None ->
  createMarkedSet E w = inr M ->
  blocks_query E s0 = inr blockKeys ->
  rejection blockKeys = None ->
  (forall k b32 s, encoded E k b32 -> b32 ∉ M ->
     exists en s' r,
       removeBlock E M k s = (Normal (Some en), s') /\
       deleteLog s' = deleteLog s ++ [(k, r)] /\
       cid en = Some k /\
       (r = None <-> err en = None) /\
       emitted (sweep_key E M k s).2 = emitted s ++ [en]) /\
  (forall k b32, k ∈ items blockKeys -> encoded E k b32 -> b32 ∉ M ->
     exists r, (k, r) ∈ deleteLog (run_gc E w None s0).2) /\
  (forall k, (k, None) ∈ deleteLog (run_gc E w None s0).2 ->
     mkEntry (Some k) None ∈ emitted (run_gc E w None s0).2) /\
  (forall k e, (k, Some e) ∈ deleteLog (run_gc E w None s0).2 ->
     delete_error_entry E k e ∈ emitted (run_gc E w None s0).2).
Proof.
  intros laws Hl HM Hq Hr. split.
  { intros k b32 s Hk Hn. unfold sweep_key, bind.
    destruct (blocks_delete E (store s) k) as [e|store'] eqn:Hd.
    - rewrite (removeBlock_delete_failed E M k s b32 e) by done.
      eexists _, _, (Some e). split; [reflexivity|]. simpl.
      split; [done|]. split; [done|]. split; [done|].
      unfold yield. simpl. by destruct (demand s) as [[|n]|].
    - rewrite (removeBlock_deleted E M k s b32 store') by done.
      eexists _, _, None. split; [reflexivity|]. simpl.
      split; [done|]. split; [done|]. split; [done|].
      unfold yield. simpl. by destruct (demand s) as [[|n]|]. }
  destruct (run_gc_drained E w s0 M blockKeys Hl HM Hq Hr)
    as (s & Hsweep & -> & Hall).
  destruct (sweep_accounted E laws _ _ _ _ _ Hsweep) as [Hfail Hok].
  simpl. split; [done|]. split.
  - intros k [H|[H _]]%Hok; [inversion H | done].
  - intros k e [H|H]%Hfail; [inversion H | done].
Qed.

Lemma unmarked_block_is_reported_witness :
  mkEntry (Some Demo.blockY) None ∈ emitted Demo.run_XYZ.2 /\
  delete_error_entry (Demo.env [Demo.blockX]) Demo.blockX
    (mkError "EIO" (Some "ERR_IO")) ∈ emitted Demo.run_XYZ.2.
Proof.
  destruct (unmarked_block_is_reported (Demo.env [Demo.blockX]) Demo.world
              Demo.store0 Demo.marked (iter_of_list Demo.store0))
    as (_ & _ & Hok & Hfail).
  - apply Demo_laws.
  - reflexivity.
  - vm_compute. reflexivity.
  - reflexivity.
  - reflexivity.
  - split.
    + apply Hok. apply (bool_decide_unpack _). vm_compute. exact I.
    + apply Hfail. apply (bool_decide_unpack _). vm_compute. exact I.
Defined.

(** C4 — per-block error isolation.  In a drained run (lock acquired,
    mark phase resolved, enumeration neither throwing nor rejecting) a
    delete call that rejects does not end the sweep: the run completes
    normally, every enumerated unmarked block has had its delete call,
    each call that rejected has left an entry with the block's cid and an
    error whose message contains the block's identifier, and each call
    that resolved has left the entry [{ cid }] and removed the block. *)
Theorem delete_failure_is_isolated {Store Raw : Type} (E : Env Store Raw)
    (w : World Raw) (s0 : Store) (M : gset string) (blockKeys : iter CID) :
  BlockstoreLaws E ->
  writeLock_rejects w = None ->
  createMarkedSet E w = inr M ->
  blocks_query E s0 = inr blockKeys ->
  rejection blockKeys = None ->
  (run_gc E w None s0).1 = Normal () /\
  (forall k b32, k ∈ items blockKeys -> encoded E k b32 -> b32 ∉ M ->
     exists r, (k, r) ∈ deleteLog (run_gc E w None s0).2) /\
  (forall k e, (k, Some e) ∈ deleteLog (run_gc E w None s0).2 ->
     exists en er,
       en ∈ emitted (run_gc E w None s0).2 /\
       cid en = Some k /\ err en = Some er /\
       occurs_in (cid_toString E k) (message er)) /\
  (forall k, (k, None) ∈ deleteLog (run_gc E w None s0).2 ->
     mkEntry (Some k) None ∈ emitted (run_gc E w None s0).2 /\
     blocks_has E (store (run_gc E w None s0).2) k = false).
Proof.
  intros laws Hl HM Hq Hr.
  destruct (run_gc_drained E w s0 M blockKeys Hl HM Hq Hr)
    as (s & Hsweep & -> & Hall).
  destruct (sweep_accounted E laws _ _ _ _ _ Hsweep) as [Hfail Hok].
  simpl. split; [done|]. split; [done|]. split.
  - intros k e [H|H]%Hfail; [inversion H|].
    eexists _, _. split; [exact H|]. split; [done|]. split; [done|].
    simpl. by exists "Could not delete block with CID ", (": " +:+ message e).
  - intros k [H|[H1 H2]]%Hok; [inversion H|]. split; [done|]. by apply H2.
Qed.

Lemma delete_failure_is_isolated_witness :
  Demo.run_XYZ.1 = Normal () /\
  (exists en er,
     en ∈ emitted Demo.run_XYZ.2 /\
     cid en = Some Demo.blockX /\ err en = Some er /\
     occurs_in "X" (message er)) /\
  Demo.holds (store Demo.run_XYZ.2) Demo.blockY = false /\
  Demo.holds (store Demo.run_XYZ.2) Demo.blockZ = false.
Proof.
  destruct (delete_failure_is_isolated (Demo.env [Demo.blockX]) Demo.world
              Demo.store0 Demo.marked (iter_of_list Demo.store0))
    as (Hdone & _ & Hfail & Hok).
  - apply Demo_laws.
  - reflexivity.
  - vm_compute. reflexivity.
  - reflexivity.
  - reflexivity.
  - split; [exact Hdone|]. split; [|split].
    + apply (Hfail Demo.blockX (mkError "EIO" (Some "ERR_IO"))).
      apply (bool_decide_unpack _). vm_compute. exact I.
    + apply (Hok Demo.blockY). apply (bool_decide_unpack _). vm_compute. exact I.
    + apply (Hok Demo.blockZ). apply (bool_decide_unpack _). vm_compute. exact I.
Defined.

(** C9 — the two shapes of an error entry.  When the delete call rejects,
    [removeBlock] returns an entry with the block's cid and an [err] whose
    message is "Could not delete block with CID ", the printed cid, ": "
    and the message of the rejection.  When encoding the identifier throws,
    it returns an entry with no cid and an [err] whose message is
    "Could delete block with CID ", the printed cid, ": " and the message
    of what was thrown: there the identifier appears in the text only. *)
Theorem error_entry_shapes {Store Raw : Type} (E : Env Store Raw)
    (M : gset string) (k : CID) (s : GcState Store) :
  (forall b32 e,
     encoded E k b32 -> b32 ∉ M -> blocks_delete E (store s) k = inl e ->
     exists msg,
       (removeBlock E M k s).1 =
         Normal (Some (mkEntry (Some k) (Some (new_Error msg)))) /\
       msg = "Could not delete block with CID " +:+ cid_toString E k
             +:+ ": " +:+ message e /\
       String.prefix "Could not delete block with CID" msg = true /\
       occurs_in (cid_toString E k) msg) /\
  (forall e,
     multibase_encode_base32 E (multihash k) = inl e ->
     exists msg,
       (removeBlock E M k s).1 =
         Normal (Some (mkEntry None (Some (new_Error msg)))) /\
       msg = "Could delete block with CID " +:+ cid_toString E k
             +:+ ": " +:+ message e /\
       String.prefix "Could delete block with CID" msg = true /\
       String.prefix "Could not" msg = false /\
       occurs_in (cid_toString E k) msg).
Proof.
  split.
  - intros b32 e Hk Hn Hd.
    rewrite (removeBlock_delete_failed E M k s b32 e) by done.
    eexists. split; [reflexivity|]. split; [done|]. split; [done|].
    by exists "Could not delete block with CID ", (": " +:+ message e).
  - intros e Hk. rewrite (removeBlock_encode_failed E M k s e) by done.
    eexists. split; [reflexivity|]. split; [done|]. split; [done|].
    split; [done|].
    by exists "Could delete block with CID ", (": " +:+ message e).
Qed.

Lemma error_entry_shapes_witness :
  (exists msg,
     (removeBlock (Demo.env [Demo.blockX]) Demo.marked Demo.blockX
        (locked Demo.store0 None)).1 =
       Normal (Some (mkEntry (Some Demo.blockX) (Some (new_Error msg)))) /\
     msg = "Could not delete block with CID X: EIO" /\
     String.prefix "Could not delete block with CID" msg = true /\
     occurs_in "X" msg) /\
  (exists msg,
     (removeBlock (Demo.env [Demo.blockX]) Demo.marked Demo.blockBad
        (locked Demo.store0 None)).1 =
       Normal (Some (mkEntry None (Some (new_Error msg)))) /\
     msg = "Could delete block with CID : empty multihash" /\
     String.prefix "Could delete block with CID" msg = true /\
     String.prefix "Could not" msg = false /\
     occurs_in "" msg).
Proof.
  destruct (error_entry_shapes (Demo.env [Demo.blockX]) Demo.marked Demo.blockX
              (locked Demo.store0 None)) as [Hdel _].
  destruct (error_entry_shapes (Demo.env [Demo.blockX]) Demo.marked
              Demo.blockBad (locked Demo.store0 None)) as [_ Henc].
  split.
  - apply (Hdel "bX" (mkError "EIO" (Some "ERR_IO"))).
    + reflexivity.
    + apply (bool_decide_unpack _). vm_compute. exact I.
    + reflexivity.
  - apply (Henc (new_Error "empty multihash")). reflexivity.
Defined.

(** C10 — retention depends on the multihash only.  Set construction and
    the membership test of the sweep both encode [cid.multihash] and
    nothing else, so when a source yields a CID, every CID with the same
    multihash bytes (another version, another codec) has the same encoded
    identifier, which is in the marked set: [removeBlock] returns [null]
    for it, no run calls delete on it or yields an entry for it, and a
    store that obeys the blockstore laws keeps its block. *)
Theorem retention_by_multihash {Store Raw : Type} (E : Env Store Raw)
    (w : World Raw) (M : gset string) (c c' : CID) :
  createMarkedSet E w = inr M ->
  c ∈ yielded_cids E w ->
  multihash c' = multihash c ->
  (exists b32, encoded E c b32 /\ encoded E c' b32 /\ b32 ∈ M) /\
  (forall s, removeBlock E M c' s = (Normal None, (incr_blocksCount s).2)) /\
  (forall consumer s0,
     (forall r, (c', r) ∉ deleteLog (run_gc E w consumer s0).2) /\
     (forall en, en ∈ emitted (run_gc E w consumer s0).2 -> cid en <> Some c') /\
     (BlockstoreLaws E ->
      blocks_has E (store (run_gc E w consumer s0).2) c' = blocks_has E s0 c')).
Proof.
  intros HM Hc Heq.
  assert (exists b32, encoded E c b32 /\ b32 ∈ M) as (b32 & Hb & Hin).
  { pose proof HM as [(Hp & Hi & Hm) _]%createMarkedSet_inr.
    assert (Forall (fun c => exists b32, encoded E c b32) (yielded_cids E w))
      as Hall.
    { unfold yielded_cids. rewrite !Forall_app.
      by destruct Hp, Hi, Hm. }
    rewrite Forall_forall in Hall. destruct (Hall c Hc) as [b32 Hb].
    exists b32. split; [done|].
    apply (createMarkedSet_elem E w M b32 HM). eauto. }
  assert (encoded E c' b32) as Hb' by (unfold encoded in *; by rewrite Heq).
  split; [eauto|]. split.
  - intros s. by apply (removeBlock_retained E M c' s b32).
  - intros consumer s0.
    destruct (run_gc_marked_untouched E w consumer s0 M c' b32) as [H1 H2];
      try done.
    split; [done|]. split; [done|]. intros laws.
    by apply (run_gc_marked_kept E w consumer s0 M c' b32).
Qed.

Lemma retention_by_multihash_witness :
  (forall s,
     removeBlock (Demo.env []) Demo.marked (Demo.v0 [x50]%byte) s =
     (Normal None, (incr_blocksCount s).2)) /\
  Demo.holds
    (store (run_gc (Demo.env []) Demo.world None
              [Demo.v0 [x50]%byte; Demo.blockX]).2)
    (Demo.v0 [x50]%byte) = true.
Proof.
  destruct (retention_by_multihash (Demo.env []) Demo.world Demo.marked
              Demo.blockP (Demo.v0 [x50]%byte)) as (_ & Hnull & Hrun).
  - vm_compute. reflexivity.
  - apply (bool_decide_unpack _). vm_compute. exact I.
  - reflexivity.
  - split; [exact Hnull|].
    destruct (Hrun None [Demo.v0 [x50]%byte; Demo.blockX]) as (_ & _ & Hkept).
    exact (eq_trans (Hkept (Demo_laws [])) eq_refl).
Defined.

(** C3 — the mark phase is atomic and the lock is always released.  Once
    [gcLock.writeLock()] has resolved, the function it resolved to is
    called exactly once and the lock is free when the run is over, whether
    the run completes normally, is stopped by the consumer's [return()],
    or throws.  If building the marked set fails, or if the marked set is
    built and the key enumeration cannot be started, the run throws that
    failure and has called delete on nothing, yielded nothing and left the
    store as it was. *)
Theorem gc_releases_lock_once {Store Raw : Type} (E : Env Store Raw)
    (w : World Raw) (consumer : option nat) (s0 : Store) :
  writeLock_rejects w = None ->
  releases (run_gc E w consumer s0).2 = 1 /\
  lockHeld (run_gc E w consumer s0).2 = false /\
  (forall e, createMarkedSet E w = inl e ->
     (run_gc E w consumer s0).1 = Throw e /\
     deleteLog (run_gc E w consumer s0).2 = [] /\
     emitted (run_gc E w consumer s0).2 = [] /\
     store (run_gc E w consumer s0).2 = s0) /\
  (forall M e, createMarkedSet E w = inr M -> blocks_query E s0 = inl e ->
     (run_gc E w consumer s0).1 = Throw e /\
     deleteLog (run_gc E w consumer s0).2 = [] /\
     emitted (run_gc E w consumer s0).2 = [] /\
     store (run_gc E w consumer s0).2 = s0).
Proof.
  intros Hl. rewrite (run_gc_acquired E w consumer s0 Hl).
  destruct (createMarkedSet E w) as [e|M] eqn:HM.
  { simpl. repeat split; try done; intros; by simplify_eq. }
  destruct (blocks_query E s0) as [e|blockKeys] eqn:Hq.
  { simpl. repeat split; try done; intros; by simplify_eq. }
  destruct (deleteUnmarkedBlocks E M blockKeys (locked s0 consumer))
    as [c s] eqn:Hrun.
  destruct (sweep_lock E _ _ _ _ _ Hrun) as [Hheld Hrel]. simpl in *.
  rewrite Hrel. repeat split; intros; by simplify_eq.
Qed.

Lemma gc_releases_lock_once_witness :
  (releases Demo.run_XYZ.2 = 1 /\ Demo.run_XYZ.1 = Normal ()) /\
  (releases (run_gc (Demo.env []) Demo.world (Some 0) Demo.store0).2 = 1 /\
   (run_gc (Demo.env []) Demo.world (Some 0) Demo.store0).1 = Return) /\
  (releases (run_gc (Demo.env []) Demo.world_root_fails None Demo.store0).2 = 1 /\
   (run_gc (Demo.env []) Demo.world_root_fails None Demo.store0).1 =
     Throw Demo.ioError /\
   deleteLog (run_gc (Demo.env []) Demo.world_root_fails None Demo.store0).2 = []).
Proof.
  split; [|split].
  - split; [|reflexivity].
    apply (gc_releases_lock_once (Demo.env [Demo.blockX]) Demo.world None
             Demo.store0). reflexivity.
  - split; [|reflexivity].
    apply (gc_releases_lock_once (Demo.env []) Demo.world (Some 0)
             Demo.store0). reflexivity.
  - destruct (gc_releases_lock_once (Demo.env []) Demo.world_root_fails None
                Demo.store0 eq_refl) as (Hrel & _ & Hmark & _).
    destruct (Hmark Demo.ioError) as (Hthrow & Hlog & _).
    + vm_compute. reflexivity.
    + done.
Defined.

(** C5 — the MFS root in the marked-set builder.  If the root-store
    lookup fails with the not-found code, the MFS source yields nothing
    and the set is built from the other two sources alone.  If it fails
    with any other error, the MFS source rejects with that error: the
    mark phase fails, so every run throws with nothing deleted, and when
    nothing else fails the error thrown is that error.  If the lookup
    succeeds and the set is built, the encoded identifier of the root and
    of every ref the recursive walk yields from it is in the set. *)
Theorem mfs_root_handling {Store Raw : Type} (E : Env Store Raw) (w : World Raw) :
  (forall err, root_get w = inl err -> code err = Some (ERR_NOT_FOUND E) ->
     mfsSource E w = INil /\
     (clean E (pinsSource w) -> clean E (pinInternalsSource w) ->
      createMarkedSet E w =
      inr (list_to_set
             (encodings E (items (pinsSource w) ++ items (pinInternalsSource w)))))) /\
  (forall err, root_get w = inl err -> code err <> Some (ERR_NOT_FOUND E) ->
     mfsSource E w = IErr err /\
     (exists e, createMarkedSet E w = inl e) /\
     (forall consumer s0,
        exists e, (run_gc E w consumer s0).1 = Throw e /\
                  deleteLog (run_gc E w consumer s0).2 = [] /\
                  emitted (run_gc E w consumer s0).2 = [] /\
                  store (run_gc E w consumer s0).2 = s0) /\
     (clean E (pinsSource w) -> clean E (pinInternalsSource w) ->
      createMarkedSet E w = inl err /\
      (writeLock_rejects w = None ->
       forall consumer s0, (run_gc E w consumer s0).1 = Throw err))) /\
  (forall mh M, root_get w = inr mh -> createMarkedSet E w = inr M ->
     exists rootCid b32,
       new_CID E mh = inr rootCid /\ encoded E rootCid b32 /\ b32 ∈ M /\
       forall ref, ref ∈ items (refs w rootCid) ->
         exists c b, new_CID E ref = inr c /\ encoded E c b /\ b ∈ M).
Proof.
  split; [|split].
  - intros err Hroot Hcode.
    assert (mfsSource E w = INil) as Hmfs.
    { unfold mfsSource. rewrite Hroot. by rewrite decide_True. }
    split; [done|]. intros Hp Hi. apply createMarkedSet_inr.
    rewrite Hmfs. split; [by auto using clean_nil|].
    unfold yielded_cids. rewrite Hmfs. simpl. by rewrite app_nil_r.
  - intros err Hroot Hcode.
    assert (mfsSource E w = IErr err) as Hmfs.
    { unfold mfsSource. rewrite Hroot. by rewrite decide_False. }
    assert (exists e, createMarkedSet E w = inl e) as [e He].
    { apply createMarkedSet_inl. rewrite Hmfs. intros (_ & _ & H).
      by apply clean_err in H. }
    split; [done|]. split; [eauto|]. split.
    + intros consumer s0.
      destruct (run_gc_mark_failed E w consumer s0 e He) as (e' & ? & _ & ?).
      eauto.
    + intros Hp Hi.
      assert (createMarkedSet E w = inl err) as Herr.
      { unfold createMarkedSet. rewrite Hmfs. by apply mark_all_third_rejects. }
      split; [done|]. intros Hl consumer s0.
      by rewrite (run_gc_acquired E w consumer s0 Hl), Herr.
  - intros mh M Hroot HM.
    pose proof HM as [(_ & _ & Hm) _]%createMarkedSet_inr.
    assert (forall c, c ∈ items (mfsSource E w) ->
                      exists b, encoded E c b /\ b ∈ M) as Hin.
    { intros c Hc. destruct Hm as [_ Hall]. rewrite Forall_forall in Hall.
      destruct (Hall c Hc) as [b Hb]. exists b. split; [done|].
      apply (createMarkedSet_elem E w M b HM). exists c. split; [|done].
      unfold yielded_cids. rewrite !elem_of_app. auto. }
    unfold mfsSource in Hm, Hin. rewrite Hroot in Hm, Hin.
    destruct (new_CID E mh) as [e|rootCid] eqn:Hnew.
    { by apply clean_err in Hm. }
    destruct (Hin rootCid) as (b32 & Hb & Hb32); [by left|].
    exists rootCid, b32. split; [done|]. split; [done|]. split; [done|].
    intros ref Href. destruct Hm as [Hrej _]. simpl in Hrej.
    destruct (map_iter_throwing_items E _ ref Hrej Href) as (c & Hc & Hcin).
    destruct (Hin c) as (b & ? & ?); [by right|]. eauto.
Qed.

Lemma mfs_root_handling_witness :
  (mfsSource (Demo.env []) Demo.world_no_mfs = INil /\
   createMarkedSet (Demo.env []) Demo.world_no_mfs =
     inr (list_to_set ["bP"; "bI"])) /\
  (createMarkedSet (Demo.env []) Demo.world_root_fails = inl Demo.ioError /\
   (run_gc (Demo.env []) Demo.world_root_fails None Demo.store0).1 =
     Throw Demo.ioError) /\
  (exists rootCid b32,
     Demo.parse [x52]%byte = inr rootCid /\
     Demo.encode (multihash rootCid) = inr b32 /\ b32 ∈ Demo.marked /\
     forall ref, ref ∈ [ [x4c]%byte; [x50]%byte ] ->
       exists c b, Demo.parse ref = inr c /\
                   Demo.encode (multihash c) = inr b /\ b ∈ Demo.marked).
Proof.
  assert (clean (Demo.env []) (pinsSource Demo.world)) as Hp.
  { split; [reflexivity|]. repeat constructor. by exists "bP". }
  assert (clean (Demo.env []) (pinInternalsSource Demo.world)) as Hi.
  { split; [reflexivity|]. repeat constructor. by exists "bI". }
  split; [|split].
  - destruct (mfs_root_handling (Demo.env []) Demo.world_no_mfs)
      as (Hnone & _ & _).
    destruct (Hnone Demo.notFound eq_refl eq_refl) as [Hnil Hset].
    split; [exact Hnil | exact (Hset Hp Hi)].
  - destruct (mfs_root_handling (Demo.env []) Demo.world_root_fails)
      as (_ & Hfail & _).
    destruct (Hfail Demo.ioError eq_refl) as (_ & _ & _ & Hthrow);
      [discriminate|].
    destruct (Hthrow Hp Hi) as [Hmark Hrun].
    split; [exact Hmark | exact (Hrun eq_refl None Demo.store0)].
  - destruct (mfs_root_handling (Demo.env []) Demo.world) as (_ & _ & Hroot).
    apply (Hroot [x52]%byte Demo.marked eq_refl).
    vm_compute. reflexivity.
Defined.

(** C7 — deduplication in the marked set.  When the set is built, every
    CID any source yields has been encoded and its encoding is a member,
    and the set has no other members; adding an encoding that is already
    in the set leaves the set as it is; the cardinality of the set is the
    number of distinct encodings, however often and by however many
    sources each is yielded; and any other delivery order of the same
    sources builds the same set. *)
Theorem marked_set_deduplicates {Store Raw : Type} (E : Env Store Raw)
    (w : World Raw) (M : gset string) :
  createMarkedSet E w = inr M ->
  (forall c, c ∈ yielded_cids E w -> exists b32, encoded E c b32 /\ b32 ∈ M) /\
  (forall x, x ∈ M -> exists c, c ∈ yielded_cids E w /\ encoded E c x) /\
  (forall c b32 output rest,
     encoded E c b32 -> b32 ∈ output ->
     mark_all E output (ICons c rest) = mark_all E output rest) /\
  size M = length (remove_dups (encodings E (yielded_cids E w))) /\
  (forall w', same_sources w w' -> createMarkedSet E w' = inr M).
Proof.
  intros HM. split; [|split; [|split; [|split]]].
  - intros c Hc.
    pose proof HM as [(Hp & Hi & Hm) _]%createMarkedSet_inr.
    assert (Forall (fun c => exists b32, encoded E c b32) (yielded_cids E w))
      as Hall.
    { unfold yielded_cids. rewrite !Forall_app. by destruct Hp, Hi, Hm. }
    rewrite Forall_forall in Hall. destruct (Hall c Hc) as [b32 Hb].
    exists b32. split; [done|].
    apply (createMarkedSet_elem E w M b32 HM). eauto.
  - intros x Hx. by apply (createMarkedSet_elem E w M x HM).
  - intros c b32 output rest Hc Hin. simpl. unfold encoded in Hc. rewrite Hc.
    f_equal. apply subseteq_union_1_L. by apply singleton_subseteq_l.
  - apply createMarkedSet_inr in HM as [_ ->].
    rewrite <- (size_list_to_set (C := gset string) (remove_dups _))
      by apply NoDup_remove_dups.
    f_equal. apply set_eq. intros x.
    by rewrite !elem_of_list_to_set, elem_of_remove_dups.
  - intros w' Hw. by apply (createMarkedSet_same_sources E w w').
Qed.

Lemma marked_set_deduplicates_witness :
  yielded_cids (Demo.env []) Demo.world =
    [Demo.blockP; Demo.blockI; Demo.blockR; Demo.blockL; Demo.blockP] /\
  size Demo.marked = 4.
Proof.
  split; [reflexivity|].
  destruct (marked_set_deduplicates (Demo.env []) Demo.world Demo.marked)
    as (_ & _ & _ & Hsize & _).
  - vm_compute. reflexivity.
  - rewrite Hsize. vm_compute. reflexivity.
Defined.

(** C8 — idempotence.  Take a first run that is drained and completes
    normally, with every one of its delete calls resolving, and a second
    run on the store the first one left, with the same pins, pin-manager
    blocks, MFS root and refs (the delivery order of the sources, the
    outcome of the lock and the consumer may differ).  The second run
    calls delete on nothing: it removes no block and leaves the store as
    the first run left it. *)
Theorem gc_is_idempotent {Store Raw : Type} (E : Env Store Raw)
    (w w' : World Raw) (consumer' : option nat) (s0 : Store) :
  BlockstoreLaws E ->
  same_sources w w' ->
  (run_gc E w None s0).1 = Normal () ->
  (forall k r, (k, r) ∈ deleteLog (run_gc E w None s0).2 -> r = None) ->
  deleteLog (run_gc E w' consumer' (store (run_gc E w None s0).2)).2 = [] /\
  removedBlocksCount
    (run_gc E w' consumer' (store (run_gc E w None s0).2)).2 = 0 /\
  store (run_gc E w' consumer' (store (run_gc E w None s0).2)).2 =
    store (run_gc E w None s0).2.
Proof.
  intros laws Hw Hdone Hall.
  (* the first run *)
  destruct (writeLock_rejects w) as [e|] eqn:Hl.
  { by rewrite (run_gc_lock_rejected E w None s0 e Hl) in Hdone. }
  rewrite (run_gc_acquired E w None s0 Hl) in Hdone, Hall |- *.
  destruct (createMarkedSet E w) as [e|M] eqn:HM; [done|].
  destruct (blocks_query E s0) as [e|blockKeys] eqn:Hq; [done|].
  destruct (deleteUnmarkedBlocks E M blockKeys (locked s0 None))
    as [c1 s1] eqn:Hrun1.
  simpl in Hdone, Hall |- *. subst c1.
  pose proof (sweep_normal E _ _ _ _ Hrun1) as Hrej.
  destruct (sweep_drained E M blockKeys (locked s0 None) eq_refl Hrej)
    as (s1' & Hrun1' & _ & Hcalled).
  rewrite Hrun1 in Hrun1'. injection Hrun1' as <-.
  destruct (sweep_accounted E laws _ _ _ _ _ Hrun1) as [_ Hgone].
  pose proof (sweep_shrinks E laws _ _ _ _ _ Hrun1) as Hshrink.
  simpl in Hshrink.
  (* the second run *)
  pose proof (createMarkedSet_same_sources E w w' M Hw HM) as HM'.
  destruct (writeLock_rejects w') as [e|] eqn:Hl'.
  { by rewrite (run_gc_lock_rejected E w' _ _ e Hl'). }
  rewrite (run_gc_acquired E w' _ _ Hl'), HM'.
  destruct (blocks_query E (store s1)) as [e|blockKeys'] eqn:Hq'; [done|].
  destruct (deleteUnmarkedBlocks E M blockKeys' (locked (store s1) consumer'))
    as [c2 s2] eqn:Hrun2.
  simpl.
  cut (store s2 = store (locked (store s1) consumer') /\
       deleteLog s2 = deleteLog (locked (store s1) consumer') /\
       removedBlocksCount s2 = removedBlocksCount (locked (store s1) consumer')).
  { simpl. tauto. }
  apply (sweep_all_marked E M blockKeys' _ c2 s2); [|done].
  (* every key the second run enumerates is marked *)
  intros k b32 Hk Hb. destruct (decide (b32 ∈ M)) as [|Hn]; [done|]. exfalso.
  pose proof (query_sound E laws _ _ _ Hq' Hk) as Hheld.
  destruct (query_complete E laws _ _ k Hq Hrej (Hshrink k Hheld))
    as (k0 & Hk0 & Heq).
  assert (encoded E k0 b32) as Hb0 by (unfold encoded in *; by rewrite Heq).
  destruct (Hcalled k0 b32 Hk0 Hb0 Hn) as [r Hr].
  rewrite (Hall k0 r Hr) in Hr.
  destruct (Hgone k0 Hr) as [H|[_ H]]; [inversion H|].
  rewrite (H k) in Hheld; [done | by symmetry].
Qed.

Lemma gc_is_idempotent_witness :
  store (run_gc (Demo.env []) Demo.world None Demo.store0).2 =
    [Demo.blockP; Demo.blockI; Demo.blockR; Demo.blockL] /\
  deleteLog
    (run_gc (Demo.env []) Demo.world_rescheduled (Some 3)
       (store (run_gc (Demo.env []) Demo.world None Demo.store0).2)).2 = [].
Proof.
  split; [reflexivity|].
  apply (gc_is_idempotent (Demo.env []) Demo.world Demo.world_rescheduled
           (Some 3) Demo.store0).
  - apply Demo_laws.
  - repeat split.
  - reflexivity.
  - intros k r Hin. vm_compute in Hin.
    repeat (apply elem_of_cons in Hin as [Hin|Hin]; [by simplify_eq|]).
    inversion Hin.
Defined.

(** * Further properties of the collector *)

(** ** Failures of the mark phase *)

Section MarkFailures.
Context {Store Raw : Type} (E : Env Store Raw).
Implicit Types (s t : iter CID) (output : gset string).

Lemma clean_first_failure s : clean E s <-> first_failure E s = None.
Proof.
  induction s as [|e|x s IH]; simpl.
  - split; [done | intros _; apply clean_nil].
  - split; [by intros ?%clean_err | done].
  - rewrite clean_cons, IH. unfold encoded.
    destruct (multibase_encode_base32 E (multihash x)) as [e|b32].
    + split; [by intros [[? ?] _] | done].
    + split; [tauto | eauto].
Qed.

Lemma mark_all_first_failure output s e :
  first_failure E s = Some e -> mark_all E output s = inl e.
Proof.
  revert output. induction s as [|e'|x s IH]; intros output; simpl.
  - done.
  - congruence.
  - destruct (multibase_encode_base32 E (multihash x)) as [e'|b32];
      [congruence | apply IH].
Qed.

Lemma first_failure_app s t :
  first_failure E (iter_app s t) =
  match first_failure E s with
  | Some e => Some e
  | None => first_failure E t
  end.
Proof.
  induction s as [|e|x s IH]; simpl; try done.
  by destruct (multibase_encode_base32 E (multihash x)).
Qed.

(** If the sources fail with [e] or not at all, and one of them fails,
    the merge fails with [e], whatever the delivery order. *)
Lemma first_failure_merge schedule (a b c : iter CID) e :
  (first_failure E a = None \/ first_failure E a = Some e) ->
  (first_failure E b = None \/ first_failure E b = Some e) ->
  (first_failure E c = None \/ first_failure E c = Some e) ->
  (first_failure E a = Some e \/ first_failure E b = Some e \/
   first_failure E c = Some e) ->
  first_failure E (parallelMerge schedule a b c) = Some e.
Proof.
  revert a b c. induction schedule as [|src schedule IH];
    intros a b c Ha Hb Hc Hone; simpl.
  - rewrite !first_failure_app.
    destruct (first_failure E a), (first_failure E b), (first_failure E c);
      intuition congruence.
  - destruct src.
    + destruct a as [|e'|x a]; simpl in *; [by apply IH | intuition congruence |].
      destruct (multibase_encode_base32 E (multihash x)); [intuition congruence|].
      by apply IH.
    + destruct b as [|e'|x b]; simpl in *; [by apply IH | intuition congruence |].
      destruct (multibase_encode_base32 E (multihash x)); [intuition congruence|].
      by apply IH.
    + destruct c as [|e'|x c]; simpl in *; [by apply IH | intuition congruence |].
      destruct (multibase_encode_base32 E (multihash x)); [intuition congruence|].
      by apply IH.
Qed.

Lemma rejection_first_failure s :
  rejection s <> None -> first_failure E s <> None.
Proof.
  induction s as [|e|x s IH]; simpl; try done.
  by destruct (multibase_encode_base32 E (multihash x)).
Qed.

Lemma unencodable_first_failure s x e :
  x ∈ items s -> multibase_encode_base32 E (multihash x) = inl e ->
  first_failure E s <> None.
Proof.
  induction s as [|e'|y s IH]; simpl; intros Hin Hx.
  - inversion Hin.
  - done.
  - apply elem_of_cons in Hin as [<-|Hin]; [by rewrite Hx|].
    destruct (multibase_encode_base32 E (multihash y)); [done | by apply IH].
Qed.

(** A ref that is no CID makes the iterable built from the refs reject. *)
Lemma map_iter_throwing_rejects (s : iter Raw) (ref : Raw) e :
  ref ∈ items s -> new_CID E ref = inl e ->
  rejection (map_iter_throwing (new_CID E) s) <> None.
Proof.
  induction s as [|e'|x s IH]; simpl; intros Hin Href.
  - inversion Hin.
  - done.
  - destruct (new_CID E x) as [e'|c] eqn:Hx; simpl; [done|].
    apply elem_of_cons in Hin as [->|Hin]; [congruence | by apply IH].
Qed.

Lemma map_iter_throwing_passes_rejection (s : iter Raw) :
  rejection s <> None ->
  rejection (map_iter_throwing (new_CID E) s) <> None.
Proof.
  induction s as [|e'|x s IH]; simpl; try done.
  destruct (new_CID E x); simpl; [done | apply IH].
Qed.

Lemma map_iter_rejection {A B} (f : A -> B) (s : iter A) :
  rejection (map_iter f s) = rejection s.
Proof. by induction s. Qed.

Lemma parallelMerge_nil {A} schedule :
  parallelMerge (A := A) schedule INil INil INil = INil.
Proof. induction schedule as [|[] ? IH]; simpl; done. Qed.
End MarkFailures.

(** ** Counters, entries and the store over a sweep *)

Section SweepAccounts.
Context {Store Raw : Type} (E : Env Store Raw).
Implicit Types (s : GcState Store) (M : gset string) (k : CID).

(** [removeBlock] returns [null] exactly for the keys whose encoded
    identifier is in the marked set. *)
Lemma removeBlock_null_iff M k s :
  (removeBlock E M k s).1 = Normal None <-> retained E M k = true.
Proof.
  unfold retained.
  destruct (multibase_encode_base32 E (multihash k)) as [e|b32] eqn:Hk.
  - rewrite (removeBlock_encode_failed E M k s e Hk). simpl. split; congruence.
  - destruct (decide (b32 ∈ M)) as [Hin|Hn].
    + rewrite (removeBlock_retained E M k s b32 Hk Hin). simpl.
      by rewrite bool_decide_eq_true_2.
    + rewrite bool_decide_eq_false_2 by done.
      destruct (blocks_delete E (store s) k) as [e|store'] eqn:Hd.
      * rewrite (removeBlock_delete_failed E M k s b32 e Hk Hn Hd).
        simpl. split; congruence.
      * rewrite (removeBlock_deleted E M k s b32 store' Hk Hn Hd).
        simpl. split; congruence.
Qed.

Lemma retained_spec M k :
  retained E M k = true <-> exists b32, encoded E k b32 /\ b32 ∈ M.
Proof.
  unfold retained, encoded.
  destruct (multibase_encode_base32 E (multihash k)) as [e|b32].
  - split; [done | by intros (? & ? & _)].
  - rewrite bool_decide_eq_true. split; [eauto|].
    intros (b & Hb & Hin). by simplify_eq.
Qed.

(** Every turn of the loop counts its key. *)
Lemma sweep_key_blocksCount M k s :
  blocksCount (sweep_key E M k s).2 = S (blocksCount s).
Proof.
  unfold sweep_key, bind.
  destruct (multibase_encode_base32 E (multihash k)) as [e|b32] eqn:Hk.
  - rewrite (removeBlock_encode_failed E M k s e Hk). unfold yield. simpl.
    by destruct (demand s) as [[|n]|].
  - destruct (decide (b32 ∈ M)) as [Hin|Hn].
    + by rewrite (removeBlock_retained E M k s b32 Hk Hin).
    + destruct (blocks_delete E (store s) k) as [e|store'] eqn:Hd.
      * rewrite (removeBlock_delete_failed E M k s b32 e Hk Hn Hd).
        unfold yield. simpl. by destruct (demand s) as [[|n]|].
      * rewrite (removeBlock_deleted E M k s b32 store' Hk Hn Hd).
        unfold yield. simpl. by destruct (demand s) as [[|n]|].
Qed.

Lemma resolved_calls_app (l1 l2 : list (CID * option JsError)) :
  resolved_calls (l1 ++ l2) = resolved_calls l1 + resolved_calls l2.
Proof.
  unfold resolved_calls. by rewrite List.filter_app, length_app.
Qed.

(** How a turn moves the counters, the log and the entries. *)
Lemma turn_counts M k s s' :
  turn E M k s s' ->
  removedBlocksCount s' + resolved_calls (deleteLog s) =
    removedBlocksCount s + resolved_calls (deleteLog s') /\
  length (deleteLog s') <= S (length (deleteLog s)) /\
  removedBlocksCount s' <= S (removedBlocksCount s) /\
  length (emitted s') =
    length (emitted s) + (if retained E M k then 0 else 1).
Proof.
  intros Ht.
  assert (forall b32, encoded E k b32 -> retained E M k = bool_decide (b32 ∈ M))
    as Hret.
  { intros b32 Hb. unfold retained, encoded in *. by rewrite Hb. }
  destruct Ht as [b Hb Hin _ Hl Ho Hr|b Hb Hn _ Hl Ho Hr
                 |b e Hb Hn _ _ Hl Ho Hr|e He _ Hl Ho Hr];
    rewrite Hl, Ho, Hr, ?resolved_calls_app, ?length_app; simpl.
  - rewrite (Hret b Hb), bool_decide_eq_true_2 by done. lia.
  - rewrite (Hret b Hb), bool_decide_eq_false_2 by done.
    unfold resolved_calls. simpl. lia.
  - rewrite (Hret b Hb), bool_decide_eq_false_2 by done.
    unfold resolved_calls. simpl. lia.
  - unfold retained. rewrite He. lia.
Qed.

(** The counters of a sweep: [removedBlocksCount] grows by the number of
    delete calls that resolved, [blocksCount] by at most the number of
    enumerated keys and by exactly that number when the sweep completes
    normally, in which case there is one new entry for every key that is
    not retained. *)
Lemma sweep_counts M blockKeys s c s' :
  deleteUnmarkedBlocks E M blockKeys s = (c, s') ->
  removedBlocksCount s' + resolved_calls (deleteLog s) =
    removedBlocksCount s + resolved_calls (deleteLog s') /\
  blocksCount s' <= blocksCount s + length (items blockKeys) /\
  length (deleteLog s') + blocksCount s <= length (deleteLog s) + blocksCount s' /\
  removedBlocksCount s' + blocksCount s <= removedBlocksCount s + blocksCount s' /\
  (c = Normal () ->
   blocksCount s' = blocksCount s + length (items blockKeys) /\
   length (emitted s') =
     length (emitted s) +
     length (List.filter (fun k => negb (retained E M k)) (items blockKeys))).
Proof.
  revert s c s'. induction blockKeys as [|e|k rest IH]; intros s c s'.
  - intros [= <- <-]. simpl. lia.
  - intros [= <- <-]. simpl. repeat split; try lia; done.
  - rewrite deleteUnmarkedBlocks_cons.
    pose proof (sweep_key_blocksCount M k s) as Hb.
    destruct (sweep_key_turn E M k s) as (c1 & s1 & Hk & Ht & _ & _ & Hc & _).
    rewrite Hk in Hb |- *. simpl in Hb.
    destruct (turn_counts M k s s1 Ht) as (Hr & Hl & Hrm & Ho).
    destruct Hc as [-> | ->].
    + intros Hrest. destruct (IH _ _ _ Hrest) as (Hr' & Hb' & Hl' & Hrm' & Hn).
      simpl. split; [lia|]. split; [lia|]. split; [lia|]. split; [lia|].
      intros ->. destruct (Hn eq_refl) as [Hb'' ->]. rewrite Ho. split; [lia|].
      destruct (retained E M k); simpl; lia.
    + intros [= <- <-]. simpl. repeat split; try lia; done.
Qed.

(** A drained sweep over an enumeration that rejects throws the
    rejection. *)
Lemma sweep_rejected M blockKeys s e :
  demand s = None -> rejection blockKeys = Some e ->
  exists s', deleteUnmarkedBlocks E M blockKeys s = (Throw e, s').
Proof.
  revert s. induction blockKeys as [|e'|k rest IH]; intros s Hd Hr; simpl in Hr.
  - done.
  - simplify_eq. by exists s.
  - rewrite deleteUnmarkedBlocks_cons.
    destruct (sweep_key_turn E M k s) as (c1 & s1 & -> & _ & _ & _ & _ & Hn).
    destruct (Hn Hd) as [-> Hd1]. by apply IH.
Qed.

(** A drained sweep yields the error entry of every enumerated key whose
    identifier cannot be encoded. *)
Lemma sweep_drained_unencodable M blockKeys s c s' :
  demand s = None ->
  deleteUnmarkedBlocks E M blockKeys s = (c, s') ->
  forall k e, k ∈ items blockKeys ->
    multibase_encode_base32 E (multihash k) = inl e ->
    encode_error_entry E k e ∈ emitted s'.
Proof.
  revert s. induction blockKeys as [|e'|k0 rest IH]; intros s Hd Hrun k e Hk He.
  - inversion Hk.
  - inversion Hk.
  - rewrite deleteUnmarkedBlocks_cons in Hrun.
    destruct (sweep_key_turn E M k0 s) as (c1 & s1 & Hk0 & Ht & _ & _ & _ & Hn).
    rewrite Hk0 in Hrun. destruct (Hn Hd) as [-> Hd1].
    simpl in Hk. apply elem_of_cons in Hk as [->|Hk]; [|by eapply IH].
    destruct (sweep_mono E _ _ _ _ _ Hrun) as [_ Hout]. apply Hout.
    destruct Ht as [b Hb _ _ _ _ _|b Hb _ _ _ _ _|b e0 Hb _ _ _ _ _ _|e0 He0 _ _ Ho _];
      unfold encoded in *; try congruence.
    rewrite Ho. apply elem_of_app. right.
    assert (e0 = e) as -> by congruence. by left.
Qed.


(** A sweep over keys that are all retained completes normally, whatever
    the consumer, and yields nothing. *)
Lemma sweep_all_retained M blockKeys s :
  rejection blockKeys = None ->
  (forall k, k ∈ items blockKeys -> retained E M k = true) ->
  exists s',
    deleteUnmarkedBlocks E M blockKeys s = (Normal (), s') /\
    emitted s' = emitted s /\ store s' = store s /\
    deleteLog s' = deleteLog s.
Proof.
  revert s. induction blockKeys as [|e|k rest IH]; intros s Hr Hall; simpl in Hr.
  - by exists s.
  - done.
  - assert (retained E M k = true) as Hk by (apply Hall; simpl; by left).
    apply retained_spec in Hk as (b32 & Hb & Hin).
    rewrite deleteUnmarkedBlocks_cons. unfold sweep_key, bind.
    rewrite (removeBlock_retained E M k s b32 Hb Hin).
    destruct (IH (incr_blocksCount s).2 Hr) as (s' & Hrest & ? & ? & ?).
    { intros k' Hk'. apply Hall. simpl. by right. }
    exists s'. simpl in *. by rewrite Hrest.
Qed.

Section KeepsWithLaws.
Hypothesis laws : BlockstoreLaws E.


(** A sweep leaves alone every block whose identifier cannot be
    encoded. *)
Lemma sweep_keeps_unencodable M blockKeys s c s' k e :
  multibase_encode_base32 E (multihash k) = inl e ->
  deleteUnmarkedBlocks E M blockKeys s = (c, s') ->
  blocks_has E (store s') k = blocks_has E (store s) k.
Proof.
  intros He.
  apply (sweep_rel E M (fun s s' =>
    blocks_has E (store s') k = blocks_has E (store s) k)).
  - auto.
  - intros s1 s2 s3 H12 H23. congruence.
  - intros k' s1 s2 _ Ht.
    destruct Ht as [b _ _ Hs _ _ _|b Hb _ Hd _ _ _|b e' _ _ _ Hs _ _ _|e' _ Hs _ _ _];
      try (by rewrite Hs).
    apply (delete_keeps E laws _ _ _ _ Hd). intros Heq.
    unfold encoded in Hb. rewrite <- Heq in Hb. congruence.
Qed.
End KeepsWithLaws.
End SweepAccounts.

(** ** The three ways a run goes *)

(** Either the lock is not acquired and nothing happens; or the mark
    phase or the query call fails under the lock and nothing but the
    release happens; or the sweep runs under the lock and the release
    follows it. *)
Lemma run_gc_cases {Store Raw : Type} (E : Env Store Raw)
    (w : World Raw) (consumer : option nat) (s0 : Store) :
  (exists e, writeLock_rejects w = Some e /\
     run_gc E w consumer s0 = (Throw e, initial s0 consumer)) \/
  (exists e, writeLock_rejects w = None /\
     (createMarkedSet E w = inl e \/
      (exists M, createMarkedSet E w = inr M) /\ blocks_query E s0 = inl e) /\
     run_gc E w consumer s0 = (Throw e, unlocked (locked s0 consumer))) \/
  (exists M blockKeys c s,
     writeLock_rejects w = None /\
     createMarkedSet E w = inr M /\ blocks_query E s0 = inr blockKeys /\
     deleteUnmarkedBlocks E M blockKeys (locked s0 consumer) = (c, s) /\
     run_gc E w consumer s0 = (c, unlocked s)).
Proof.
  destruct (writeLock_rejects w) as [e|] eqn:Hl.
  { left. exists e. split; [done|]. by apply run_gc_lock_rejected. }
  right. rewrite (run_gc_acquired E w consumer s0 Hl).
  destruct (createMarkedSet E w) as [e|M] eqn:HM.
  { left. exists e. auto. }
  destruct (blocks_query E s0) as [e|blockKeys] eqn:Hq.
  { left. exists e. split; [done|]. split; [|done]. right. eauto. }
  right.
  destruct (deleteUnmarkedBlocks E M blockKeys (locked s0 consumer))
    as [c s] eqn:Hrun.
  exists M, blockKeys, c, s. auto.
Qed.

(** ** Further properties *)

(** X1 — the lock.  No run leaves the lock held, and the release function
    is called only if the lock was acquired: when [gcLock.writeLock()]
    rejects, the run throws that rejection and has done nothing else (no
    release, no delete, no entry); when it resolves, the release function
    is called once. *)
Theorem lock_is_never_left_held {Store Raw : Type} (E : Env Store Raw)
    (w : World Raw) (consumer : option nat) (s0 : Store) :
  lockHeld (run_gc E w consumer s0).2 = false /\
  match writeLock_rejects w with
  | Some e =>
      run_gc E w consumer s0 = (Throw e, initial s0 consumer) /\
      releases (run_gc E w consumer s0).2 = 0
  | None => releases (run_gc E w consumer s0).2 = 1
  end.
Proof.
  destruct (run_gc_cases E w consumer s0)
    as [(e & Hl & ->)|[(e & Hl & _ & ->)|(M & ks & c & s & Hl & _ & _ & Hrun & ->)]];
    rewrite Hl; simpl; try done.
  destruct (sweep_lock E _ _ _ _ _ Hrun) as [_ ->]. done.
Qed.

(** X2 — any failure of the mark phase is fatal.  If [pin.ls()] rejects,
    or [pinManager.getInternalBlocks()] rejects, or the root lookup fails
    with another code than not-found, or [new CID] throws on the root
    bytes or on a ref, or the refs walk rejects, or the encoder throws on
    a CID a source yields, then [createMarkedSet] rejects under every
    delivery order, and every run throws with no delete call made, no
    entry yielded and the store as it was. *)
Theorem mark_failure_aborts_run {Store Raw : Type} (E : Env Store Raw)
    (w : World Raw) :
  (rejection (pin_ls w) <> None \/
   (exists e, getInternalBlocks w = inl e) \/
   (exists err, root_get w = inl err /\ code err <> Some (ERR_NOT_FOUND E)) \/
   (exists mh e, root_get w = inr mh /\ new_CID E mh = inl e) \/
   (exists mh rootCid,
      root_get w = inr mh /\ new_CID E mh = inr rootCid /\
      (rejection (refs w rootCid) <> None \/
       (exists ref e, ref ∈ items (refs w rootCid) /\ new_CID E ref = inl e))) \/
   (exists c e, c ∈ yielded_cids E w /\
      multibase_encode_base32 E (multihash c) = inl e)) ->
  (forall w', same_sources w w' -> exists e, createMarkedSet E w' = inl e) /\
  (forall consumer s0,
     (exists e, (run_gc E w consumer s0).1 = Throw e) /\
     deleteLog (run_gc E w consumer s0).2 = [] /\
     emitted (run_gc E w consumer s0).2 = [] /\
     store (run_gc E w consumer s0).2 = s0).
Proof.
  intros Hfail.
  assert (~ (clean E (pinsSource w) /\ clean E (pinInternalsSource w) /\
             clean E (mfsSource E w))) as Hunclean.
  { intros (Hp & Hi & Hm).
    destruct Hfail as [Hr|[(e & Hi')|[(err & Hroot & Hcode)|[(mh & e & Hroot & Hnew)
                      |[(mh & rootCid & Hroot & Hnew & Hrefs)|(c & e & Hc & He)]]]]].
    - destruct Hp as [Hp _]. unfold pinsSource in Hp.
      by rewrite map_iter_rejection in Hp.
    - unfold pinInternalsSource in Hi. rewrite Hi' in Hi. by apply clean_err in Hi.
    - unfold mfsSource in Hm. rewrite Hroot, decide_False in Hm by done.
      by apply clean_err in Hm.
    - unfold mfsSource in Hm. rewrite Hroot, Hnew in Hm. by apply clean_err in Hm.
    - unfold mfsSource in Hm. rewrite Hroot, Hnew in Hm.
      destruct Hm as [Hm _]. simpl in Hm. destruct Hrefs as [Hr|(ref & e & Hin & He)].
      + by apply (map_iter_throwing_passes_rejection E) in Hr.
      + by apply (map_iter_throwing_rejects E _ ref e Hin) in He.
    - unfold yielded_cids in Hc. rewrite !elem_of_app in Hc.
      destruct Hc as [Hc|[Hc|Hc]].
      + apply clean_first_failure in Hp.
        by apply (unencodable_first_failure E _ c e Hc) in He.
      + apply clean_first_failure in Hi.
        by apply (unencodable_first_failure E _ c e Hc) in He.
      + apply clean_first_failure in Hm.
        by apply (unencodable_first_failure E _ c e Hc) in He. }
  destruct (createMarkedSet_inl E w Hunclean) as [e He]. split.
  - intros w' (Hp & Hi & Hr & Hf). apply createMarkedSet_inl.
    unfold pinsSource, pinInternalsSource, mfsSource in *.
    by rewrite Hp, Hi, Hr, Hf.
  - intros consumer s0.
    destruct (run_gc_mark_failed E w consumer s0 e He) as (e' & ? & _ & ?).
    eauto.
Qed.

Lemma mark_failure_aborts_run_witness :
  (exists e, createMarkedSet (Demo.env []) Demo.world_bad_ref = inl e) /\
  deleteLog (run_gc (Demo.env []) Demo.world_bad_ref None Demo.store0).2 = [] /\
  store (run_gc (Demo.env []) Demo.world_bad_ref None Demo.store0).2 =
    Demo.store0.
Proof.
  destruct (mark_failure_aborts_run (Demo.env []) Demo.world_bad_ref)
    as [Hmark Hrun].
  - do 4 right. left. exists [x52]%byte, Demo.blockR.
    split; [reflexivity|]. split; [reflexivity|]. right.
    exists [], (new_Error "invalid CID"). split; [|reflexivity].
    apply (bool_decide_unpack _). vm_compute. exact I.
  - split; [apply Hmark; repeat split|].
    destruct (Hrun None Demo.store0) as (_ & Hlog & _ & Hstore). by split.
Defined.

(** X3 — which error the run throws.  When every source either does not
    fail or fails with [e] (by rejecting, or by yielding a CID on which
    the encoder throws [e]), and at least one source fails, then
    [createMarkedSet] rejects with [e] under every delivery order and a
    run that acquired the lock throws [e]. *)
Theorem mark_failure_is_thrown {Store Raw : Type} (E : Env Store Raw)
    (w : World Raw) (e : JsError) :
  writeLock_rejects w = None ->
  (first_failure E (pinsSource w) = None \/
   first_failure E (pinsSource w) = Some e) ->
  (first_failure E (pinInternalsSource w) = None \/
   first_failure E (pinInternalsSource w) = Some e) ->
  (first_failure E (mfsSource E w) = None \/
   first_failure E (mfsSource E w) = Some e) ->
  (first_failure E (pinsSource w) = Some e \/
   first_failure E (pinInternalsSource w) = Some e \/
   first_failure E (mfsSource E w) = Some e) ->
  createMarkedSet E w = inl e /\
  forall consumer s0, (run_gc E w consumer s0).1 = Throw e.
Proof.
  intros Hl Hp Hi Hm Hone.
  assert (createMarkedSet E w = inl e) as He.
  { unfold createMarkedSet. apply mark_all_first_failure.
    by apply first_failure_merge. }
  split; [done|]. intros consumer s0.
  by rewrite (run_gc_acquired E w consumer s0 Hl), He.
Qed.

Lemma mark_failure_is_thrown_witness :
  createMarkedSet (Demo.env []) Demo.world_pins_reject = inl Demo.ioError /\
  (run_gc (Demo.env []) Demo.world_pins_reject (Some 2) Demo.store0).1 =
    Throw Demo.ioError.
Proof.
  destruct (mark_failure_is_thrown (Demo.env []) Demo.world_pins_reject
              Demo.ioError) as [Hmark Hrun].
  - reflexivity.
  - right. reflexivity.
  - left. reflexivity.
  - left. reflexivity.
  - left. reflexivity.
  - split; [exact Hmark | exact (Hrun (Some 2) Demo.store0)].
Defined.

(** X4 — more live CIDs, fewer deletions.  If the sources of one world
    yield every CID the sources of another yield, and both marked sets
    are built, the first marked set contains the second, and every key
    for which [removeBlock] returns [null] under the second gets [null]
    under the first as well. *)
Theorem more_sources_mark_more {Store Raw : Type} (E : Env Store Raw)
    (w w' : World Raw) (M M' : gset string) :
  createMarkedSet E w = inr M ->
  createMarkedSet E w' = inr M' ->
  (forall c, c ∈ yielded_cids E w -> c ∈ yielded_cids E w') ->
  M ⊆ M' /\
  forall k s s',
    (removeBlock E M k s).1 = Normal None ->
    (removeBlock E M' k s').1 = Normal None.
Proof.
  intros HM HM' Hsub.
  assert (M ⊆ M') as Hincl.
  { intros x Hx. apply (createMarkedSet_elem E w M x HM) in Hx as (c & Hc & Hb).
    apply (createMarkedSet_elem E w' M' x HM'). eauto. }
  split; [done|]. intros k s s'. rewrite !removeBlock_null_iff, !retained_spec.
  intros (b32 & Hb & Hin). exists b32. split; [done|]. by apply Hincl.
Qed.

Lemma more_sources_mark_more_witness :
  Demo.marked ⊆ {["bX"]} ∪ Demo.marked /\
  forall s s',
    (removeBlock (Demo.env []) Demo.marked Demo.blockP s).1 = Normal None ->
    (removeBlock (Demo.env []) ({["bX"]} ∪ Demo.marked) Demo.blockP s').1 =
      Normal None.
Proof.
  destruct (more_sources_mark_more (Demo.env []) Demo.world Demo.world_X_pinned
              Demo.marked ({["bX"]} ∪ Demo.marked)) as [Hsub Hnull].
  - vm_compute. reflexivity.
  - vm_compute. reflexivity.
  - intros c Hc. apply (bool_decide_unpack _).
    vm_compute in Hc.
    repeat (apply elem_of_cons in Hc as [->|Hc]; [vm_compute; exact I|]).
    inversion Hc.
  - split; [exact Hsub | exact (Hnull Demo.blockP)].
Defined.

(** X5 — nothing to keep.  With no pins, no pin-manager blocks and no
    MFS root the marked set is empty under every delivery order, no key
    is retained, and a drained run over an enumeration that does not
    reject calls delete on every enumerated key whose identifier can be
    encoded. *)
Theorem nothing_marked_without_sources {Store Raw : Type} (E : Env Store Raw)
    (w : World Raw) (err : JsError) :
  pin_ls w = INil -> getInternalBlocks w = inr [] ->
  root_get w = inl err -> code err = Some (ERR_NOT_FOUND E) ->
  createMarkedSet E w = inr ∅ /\
  (forall k, retained E ∅ k = false) /\
  (writeLock_rejects w = None ->
   forall s0 blockKeys,
     blocks_query E s0 = inr blockKeys -> rejection blockKeys = None ->
     (run_gc E w None s0).1 = Normal () /\
     forall k b32, k ∈ items blockKeys -> encoded E k b32 ->
       exists r, (k, r) ∈ deleteLog (run_gc E w None s0).2).
Proof.
  intros Hp Hi Hroot Hcode.
  assert (createMarkedSet E w = inr ∅) as HM.
  { unfold createMarkedSet, pinsSource, pinInternalsSource, mfsSource.
    rewrite Hp, Hi, Hroot, decide_True by done. simpl.
    by rewrite parallelMerge_nil. }
  split; [done|]. split.
  - intros k. unfold retained.
    destruct (multibase_encode_base32 E (multihash k)); [done|].
    apply bool_decide_eq_false_2, not_elem_of_empty.
  - intros Hl s0 blockKeys Hq Hr.
    destruct (run_gc_drained E w s0 ∅ blockKeys Hl HM Hq Hr)
      as (s & _ & -> & Hall).
    split; [done|]. intros k b32 Hk Hb. apply (Hall k b32 Hk Hb).
    apply not_elem_of_empty.
Qed.

Lemma nothing_marked_without_sources_witness :
  createMarkedSet (Demo.env []) Demo.world_empty = inr ∅ /\
  store (run_gc (Demo.env []) Demo.world_empty None Demo.store0).2 = [] /\
  exists r,
    (Demo.blockP, r) ∈
      deleteLog (run_gc (Demo.env []) Demo.world_empty None Demo.store0).2.
Proof.
  destruct (nothing_marked_without_sources (Demo.env []) Demo.world_empty
              Demo.notFound eq_refl eq_refl eq_refl eq_refl)
    as (Hset & _ & Hrun).
  split; [exact Hset|]. split; [reflexivity|].
  destruct (Hrun eq_refl Demo.store0 (iter_of_list Demo.store0) eq_refl eq_refl)
    as [_ Hall].
  apply (Hall Demo.blockP "bP"); [|reflexivity].
  apply (bool_decide_unpack _). vm_compute. exact I.
Defined.



(** X7 — the two counters.  After any run [removedBlocksCount] is the
    number of delete calls that resolved, which is at most the number of
    delete calls, which is at most [blocksCount], which is at most the
    number of enumerated keys; and after a run that completed normally
    [blocksCount] is the number of enumerated keys. *)
Theorem counters_after_run {Store Raw : Type} (E : Env Store Raw)
    (w : World Raw) (consumer : option nat) (s0 : Store) :
  removedBlocksCount (run_gc E w consumer s0).2 =
    resolved_calls (deleteLog (run_gc E w consumer s0).2) /\
  resolved_calls (deleteLog (run_gc E w consumer s0).2) <=
    length (deleteLog (run_gc E w consumer s0).2) /\
  length (deleteLog (run_gc E w consumer s0).2) <=
    blocksCount (run_gc E w consumer s0).2 /\
  (forall blockKeys, blocks_query E s0 = inr blockKeys ->
     blocksCount (run_gc E w consumer s0).2 <= length (items blockKeys) /\
     ((run_gc E w consumer s0).1 = Normal () ->
      blocksCount (run_gc E w consumer s0).2 = length (items blockKeys))).
Proof.
  assert (forall log, resolved_calls log <= length log) as Hle.
  { intros log. unfold resolved_calls. induction log as [|x log IH]; simpl; [lia|].
    destruct (resolved x); simpl; lia. }
  split; [|split; [apply Hle|]].
  - destruct (run_gc_cases E w consumer s0)
      as [(e & _ & ->)|[(e & _ & _ & ->)|(M & ks & cpl & s & _ & _ & _ & Hrun & ->)]];
      simpl; try done.
    destruct (sweep_counts E _ _ _ _ _ Hrun) as (Hr & _). simpl in Hr.
    unfold resolved_calls in *. simpl in Hr. lia.
  - destruct (run_gc_cases E w consumer s0)
      as [(e & _ & ->)|[(e & _ & _ & ->)|(M & ks & cpl & s & _ & _ & Hq & Hrun & ->)]];
      simpl.
    + split; [lia|]. intros ks _. split; [lia | done].
    + split; [lia|]. intros ks _. split; [lia | done].
    + destruct (sweep_counts E _ _ _ _ _ Hrun) as (_ & Hb & Hl & _ & Hn).
      simpl in *. split; [lia|]. intros ks' Hq'. rewrite Hq in Hq'. simplify_eq.
      split; [lia|]. intros ->. by destruct (Hn eq_refl).
Qed.

(** X8 — a rejecting enumeration is fatal.  When the lock is acquired
    and the marked set built, and the iterable [repo.blocks.query]
    returned rejects with [e], a drained run throws [e]; the release
    function has been called once and the lock is free. *)
Theorem enumeration_rejection_is_fatal {Store Raw : Type} (E : Env Store Raw)
    (w : World Raw) (s0 : Store) (M : gset string) (blockKeys : iter CID)
    (e : JsError) :
  writeLock_rejects w = None ->
  createMarkedSet E w = inr M ->
  blocks_query E s0 = inr blockKeys ->
  rejection blockKeys = Some e ->
  (run_gc E w None s0).1 = Throw e /\
  releases (run_gc E w None s0).2 = 1 /\
  lockHeld (run_gc E w None s0).2 = false.
Proof.
  intros Hl HM Hq Hr. rewrite (run_gc_acquired E w None s0 Hl), HM, Hq.
  destruct (sweep_rejected E M blockKeys (locked s0 None) e eq_refl Hr)
    as [s Hrun].
  rewrite Hrun. simpl.
  destruct (sweep_lock E _ _ _ _ _ Hrun) as [_ ->]. done.
Qed.

Lemma enumeration_rejection_is_fatal_witness :
  (run_gc (Demo.env_flaky []) Demo.world None Demo.store0).1 =
    Throw Demo.ioError /\
  releases (run_gc (Demo.env_flaky []) Demo.world None Demo.store0).2 = 1 /\
  lockHeld (run_gc (Demo.env_flaky []) Demo.world None Demo.store0).2 = false.
Proof.
  apply (enumeration_rejection_is_fatal (Demo.env_flaky []) Demo.world
           Demo.store0 Demo.marked
           (iter_app (iter_of_list Demo.store0) (IErr Demo.ioError))).
  - reflexivity.
  - vm_compute. reflexivity.
  - reflexivity.
  - reflexivity.
Defined.

(** X9 — a key whose identifier cannot be encoded.  In the sweep (unlike
    in the mark phase) a throw of the encoder is not fatal: no run calls
    delete on such a key, a store that obeys the blockstore laws keeps
    its block, a drained run has yielded its error entry, and the run
    still completes normally when the enumeration does not reject. *)
Theorem unencodable_key_is_reported_not_deleted {Store Raw : Type}
    (E : Env Store Raw) (w : World Raw) (s0 : Store) (M : gset string)
    (blockKeys : iter CID) (k : CID) (e : JsError) :
  BlockstoreLaws E ->
  writeLock_rejects w = None ->
  createMarkedSet E w = inr M ->
  blocks_query E s0 = inr blockKeys ->
  k ∈ items blockKeys ->
  multibase_encode_base32 E (multihash k) = inl e ->
  (forall consumer,
     (forall r, (k, r) ∉ deleteLog (run_gc E w consumer s0).2) /\
     blocks_has E (store (run_gc E w consumer s0).2) k = true) /\
  encode_error_entry E k e ∈ emitted (run_gc E w None s0).2 /\
  (rejection blockKeys = None -> (run_gc E w None s0).1 = Normal ()).
Proof.
  intros laws Hl HM Hq Hk He. split; [|split].
  - intros consumer. rewrite (run_gc_acquired E w consumer s0 Hl), HM, Hq.
    destruct (deleteUnmarkedBlocks E M blockKeys (locked s0 consumer))
      as [c s] eqn:Hrun. simpl. split.
    + intros r Hin.
      destruct (sweep_deleteLog E _ _ _ _ _ Hrun _ _ Hin) as [H|(_ & b & Hb & _)];
        [inversion H|]. unfold encoded in Hb. congruence.
    + rewrite (sweep_keeps_unencodable E laws _ _ _ _ _ k e He Hrun). simpl.
      by apply (query_sound E laws s0 blockKeys).
  - rewrite (run_gc_acquired E w None s0 Hl), HM, Hq.
    destruct (deleteUnmarkedBlocks E M blockKeys (locked s0 None))
      as [c s] eqn:Hrun. simpl.
    by apply (sweep_drained_unencodable E M blockKeys (locked s0 None) c s).
  - intros Hr.
    by destruct (run_gc_drained E w s0 M blockKeys Hl HM Hq Hr) as (s & _ & -> & _).
Qed.

Lemma unencodable_key_is_reported_not_deleted_witness :
  (forall r,
     (Demo.blockBad, r) ∉
       deleteLog (run_gc (Demo.env []) Demo.world None Demo.store_bad).2) /\
  encode_error_entry (Demo.env []) Demo.blockBad (new_Error "empty multihash")
    ∈ emitted (run_gc (Demo.env []) Demo.world None Demo.store_bad).2 /\
  (run_gc (Demo.env []) Demo.world None Demo.store_bad).1 = Normal ().
Proof.
  destruct (unencodable_key_is_reported_not_deleted (Demo.env []) Demo.world
              Demo.store_bad Demo.marked (iter_of_list Demo.store_bad)
              Demo.blockBad (new_Error "empty multihash"))
    as (Hnot & Hentry & Hdone).
  - apply Demo_laws.
  - reflexivity.
  - vm_compute. reflexivity.
  - reflexivity.
  - apply (bool_decide_unpack _). vm_compute. exact I.
  - reflexivity.
  - split; [apply (Hnot None)|]. split; [exact Hentry | by apply Hdone].
Defined.



(** X11 — a store of live blocks.  When every enumerated key is retained
    (in particular when the store is empty) and the enumeration does not
    reject, the run completes normally whatever the consumer, yields no
    entry, calls delete on nothing, removes nothing and leaves the store
    as it was; the lock is released once. *)
Theorem live_store_is_left_alone {Store Raw : Type} (E : Env Store Raw)
    (w : World Raw) (consumer : option nat) (s0 : Store) (M : gset string)
    (blockKeys : iter CID) :
  writeLock_rejects w = None ->
  createMarkedSet E w = inr M ->
  blocks_query E s0 = inr blockKeys ->
  rejection blockKeys = None ->
  (forall k, k ∈ items blockKeys -> retained E M k = true) ->
  (run_gc E w consumer s0).1 = Normal () /\
  emitted (run_gc E w consumer s0).2 = [] /\
  deleteLog (run_gc E w consumer s0).2 = [] /\
  removedBlocksCount (run_gc E w consumer s0).2 = 0 /\
  store (run_gc E w consumer s0).2 = s0 /\
  blocksCount (run_gc E w consumer s0).2 = length (items blockKeys) /\
  releases (run_gc E w consumer s0).2 = 1.
Proof.
  intros Hl HM Hq Hr Hall. rewrite (run_gc_acquired E w consumer s0 Hl), HM, Hq.
  destruct (sweep_all_retained E M blockKeys (locked s0 consumer) Hr Hall)
    as (s & Hrun & Ho & Hs & Hlog).
  rewrite Hrun. simpl in *.
  destruct (sweep_counts E _ _ _ _ _ Hrun) as (Hrem & _ & _ & _ & Hn).
  destruct (Hn eq_refl) as [Hb _].
  destruct (sweep_lock E _ _ _ _ _ Hrun) as [_ Hrel].
  rewrite Hlog in Hrem. simpl in *. unfold resolved_calls in Hrem. simpl in Hrem.
  rewrite Hrel. repeat split; try done; lia.
Qed.

Lemma live_store_is_left_alone_witness :
  run_gc (Demo.env []) Demo.world (Some 0) Demo.store_live =
  (Normal (), mkState Demo.store_live 4 0 [] (Some 0) false 1 []).
Proof.
  destruct (live_store_is_left_alone (Demo.env []) Demo.world (Some 0)
              Demo.store_live Demo.marked (iter_of_list Demo.store_live))
    as (Hdone & _).
  - reflexivity.
  - vm_compute. reflexivity.
  - reflexivity.
  - reflexivity.
  - intros k Hk. vm_compute in Hk.
    repeat (apply elem_of_cons in Hk as [->|Hk]; [vm_compute; reflexivity|]).
    inversion Hk.
  - reflexivity.
Defined.

(** X12 — the entries of a run.  Every entry a run yields belongs to an
    enumerated key that is not retained and is one of three: [{ cid }],
    [{ cid, err }] with the delete message, or [{ err }] with the encode
    message; so no entry lacks both [cid] and [err].  A run that
    completes normally has yielded exactly one entry for every enumerated
    key that is not retained. *)
Theorem entries_of_a_run {Store Raw : Type} (E : Env Store Raw)
    (w : World Raw) (consumer : option nat) (s0 : Store) :
  (forall en, en ∈ emitted (run_gc E w consumer s0).2 ->
     exists M blockKeys k,
       createMarkedSet E w = inr M /\ blocks_query E s0 = inr blockKeys /\
       k ∈ items blockKeys /\ retained E M k = false /\
       (en = mkEntry (Some k) None \/
        (exists e, en = delete_error_entry E k e) \/
        (exists e, en = encode_error_entry E k e))) /\
  (forall en, en ∈ emitted (run_gc E w consumer s0).2 ->
     cid en <> None \/ err en <> None) /\
  (forall M blockKeys,
     createMarkedSet E w = inr M -> blocks_query E s0 = inr blockKeys ->
     (run_gc E w consumer s0).1 = Normal () ->
     length (emitted (run_gc E w consumer s0).2) =
     length (List.filter (fun k => negb (retained E M k)) (items blockKeys))).
Proof.
  assert (forall en, en ∈ emitted (run_gc E w consumer s0).2 ->
     exists M blockKeys k,
       createMarkedSet E w = inr M /\ blocks_query E s0 = inr blockKeys /\
       k ∈ items blockKeys /\ retained E M k = false /\
       (en = mkEntry (Some k) None \/
        (exists e, en = delete_error_entry E k e) \/
        (exists e, en = encode_error_entry E k e))) as Hclass.
  { destruct (run_gc_cases E w consumer s0)
      as [(e & _ & ->)|[(e & _ & _ & ->)|(M & ks & cpl & s & _ & HM & Hq & Hrun & ->)]];
      simpl; try (by intros en H; inversion H).
    intros en Hen.
    destruct (sweep_emitted E _ _ _ _ _ Hrun _ Hen)
      as [H|(k & Hk & [(b & Hb & Hn & Hen')|(e & He & ->)])]; [inversion H| |].
    - exists M, ks, k. repeat split; try done.
      + unfold retained, encoded in *. rewrite Hb.
        by apply bool_decide_eq_false_2.
      + destruct Hen' as [->|[e ->]]; eauto.
    - exists M, ks, k. repeat split; try done.
      + unfold retained. by rewrite He.
      + eauto. }
  split; [done|]. split.
  - intros en Hen.
    destruct (Hclass en Hen) as (_ & _ & k & _ & _ & _ & _ & [->|[[e ->]|[e ->]]]);
      simpl; [by left | by left | by right].
  - intros M blockKeys HM Hq.
    destruct (run_gc_cases E w consumer s0)
      as [(e & _ & ->)|[(e & _ & _ & ->)|(M' & ks & cpl & s & _ & HM' & Hq' & Hrun & ->)]];
      simpl; try done.
    intros ->. rewrite HM in HM'. rewrite Hq in Hq'. simplify_eq.
    destruct (sweep_counts E _ _ _ _ _ Hrun) as (_ & _ & _ & _ & Hn).
    by destruct (Hn eq_refl) as [_ ->].
Qed.
